(** * N-Queens solvers of [n_queens.py]: a shallow embedding and its properties

    The Python module offers a permutation solver ([brute_force]), two
    backtracking solvers ([recursive], [recursive_fast]), the move oracle
    they share ([get_valid_moves]) and a self-test of the oracle
    ([test_get_valid_moves]).

    Modelling choices.
    - Python integers are [Z]; tuples and lists of rows are [list Z].
    - A Python [set] that is only tested for membership or used as a result
      is a [gset].  The one set that the code iterates over, the result of
      [get_valid_moves], is the list of its elements in iteration order.
      Python leaves that order to the runtime, so the solvers are written
      over a parameter [set_order] that only has to list every surviving
      row once; [ascending], [descending] and [cpython_order] are such
      orders.
    - [assert] and a call with a wrong number of arguments raise; a run
      therefore ends in an [outcome].  Recursion is by fuel; the fuel given
      at top level suffices for every argument, and the runs satisfy the
      recursive equations of the Python functions ([recursive_unfold],
      [recursive_fast_unfold]).
    - The script around [main] is a function of the lines that are typed:
      it yields what the script writes, as events rather than text, and how
      it ends.  What [int] makes of a text is a parameter.
    - The recursion limit and the memory of the interpreter are not
      modelled. *)

From stdpp Require Import gmap list sorting strings.

Set Warnings "-clear-no-such-hyp".

Local Open Scope Z_scope.

(** ** Outcomes of a run *)

Inductive exception := AssertionError | TypeError | ValueError.

Inductive outcome (A : Type) :=
| Returned (a : A)
| Raised (e : exception)
| OutOfFuel.
Arguments Returned {A} a.
Arguments Raised {A} e.
Arguments OutOfFuel {A}.

#[global] Instance outcome_fmap : FMap outcome := λ A B f c,
  match c with
  | Returned a => Returned (f a)
  | Raised e => Raised e
  | OutOfFuel => OutOfFuel
  end.

#[global] Instance outcome_bind : MBind outcome := λ A B k c,
  match c with
  | Returned a => k a
  | Raised e => Raised e
  | OutOfFuel => OutOfFuel
  end.

(** [for x in l: s = body(s, x)], where the body may raise. *)
Fixpoint for_each {A S} (body : S → A → outcome S) (s : S) (l : list A)
  : outcome S :=
  match l with
  | [] => Returned s
  | x :: l => s' ← body s x; for_each body s' l
  end.

(** [for x in l: r = f(x); if r != None: return r] followed by
    [return None]. *)
Fixpoint first_found {A B} (f : A → outcome (option B)) (l : list A)
  : outcome (option B) :=
  match l with
  | [] => Returned None
  | x :: l =>
      r ← f x;
      match r with
      | Some s => Returned (Some s)
      | None => first_found f l
      end
  end.

(** ** Python built-ins *)

(** [range(n)] *)
Definition range (n : Z) : list Z := seqZ 0 n.

(** [range(a, b)] on indices *)
Definition range_from (a b : nat) : list nat := seq a (b - a).

(** [enumerate(l)] *)
Definition enumerate {A} (l : list A) : list (nat * A) := imap pair l.

(** [l[:-1]] *)
Definition drop_last {A} (l : list A) : list A := take (length l - 1) l.

(** [itertools.permutations(l, r)]: the [r]-long arrangements of [l], in
    the order of the positions chosen. *)
Fixpoint selections {A} (l : list A) : list (A * list A) :=
  match l with
  | [] => []
  | x :: xs => (x, xs) :: (prod_map id (cons x) <$> selections xs)
  end.

Fixpoint permutations {A} (l : list A) (r : nat) : list (list A) :=
  match r with
  | O => [[]]
  | S r => '(x, rest) ← selections l; cons x <$> permutations rest r
  end.

(** ** The oracle: [get_valid_moves] *)

(** The loop body over [enumerate(prev_moves)]. *)
Definition mark_invalid (len : nat) (invalid_moves : gset Z) (item : nat * Z)
  : gset Z :=
  let '(idx, move) := item in
  let invalid_moves := {[move]} ∪ invalid_moves in
  let diagonal_shift := Z.of_nat len - Z.of_nat idx in
  let invalid_moves := {[move + diagonal_shift]} ∪ invalid_moves in
  {[move - diagonal_shift]} ∪ invalid_moves.

(** [invalid_moves] when the loop is over. *)
Definition invalid_moves_of (prev_moves : list Z) : gset Z :=
  foldl (mark_invalid (length prev_moves)) ∅ (enumerate prev_moves).

(** The rows of [valid_moves] that [difference_update] keeps, in the
    order in which they were inserted. *)
Definition surviving (valid_moves : list Z) (invalid_moves : gset Z)
  : list Z :=
  filter (λ m, m ∉ invalid_moves) valid_moves.

(** ** The permutation solver: [brute_force] *)

(** The loop over [idx_2]; the result is the counter and [not_valid].
    [idx_2] stays below [len(permut)], so [permut[idx_2]] is always there. *)
Fixpoint scan_row (permut : list Z) (idx_1 : nat) (elem : Z)
    (idxs : list nat) (counter : Z) : Z * bool :=
  match idxs with
  | [] => (counter, false)
  | idx_2 :: idxs =>
      let counter := counter + 1 in
      if decide (Z.abs (elem - permut !!! idx_2)
                 = Z.of_nat idx_2 - Z.of_nat idx_1)
      then (counter, true)
      else scan_row permut idx_1 elem idxs counter
  end.

(** The loop over [enumerate(permut[:-1])]. *)
Fixpoint scan_rows (permut : list Z) (items : list (nat * Z)) (counter : Z)
  : Z * bool :=
  match items with
  | [] => (counter, false)
  | (idx_1, elem) :: items =>
      let '(counter, not_valid) :=
        scan_row permut idx_1 elem
                 (range_from (idx_1 + 1) (length permut)) counter in
      if not_valid then (counter, true)
      else scan_rows permut items counter
  end.

(** The body of the loop over the permutations. *)
Definition try_permut (state : gset (list Z) * Z) (permut : list Z)
  : gset (list Z) * Z :=
  let '(solutions, counter) := state in
  let '(counter, not_valid) :=
    scan_rows permut (enumerate (drop_last permut)) counter in
  if not_valid then (solutions, counter)
  else ({[permut]} ∪ solutions, counter).

(** [permutations(range(n), n)] refuses a negative length. *)
Definition brute_force (n : Z) : outcome (gset (list Z) * Z) :=
  if decide (n < 0) then Raised ValueError
  else Returned (foldl try_permut (∅, 0)
                       (permutations (range n) (Z.to_nat n))).

Section Solvers.

(** The order in which the runtime iterates over the set that
    [difference_update] leaves, given the board size and the rows that
    survive (smallest first). *)
Variable set_order : Z → list Z → list Z.

Definition get_valid_moves (prev_moves : list Z) (board_size : Z) : list Z :=
  let valid_moves := range board_size in
  let invalid_moves := invalid_moves_of prev_moves in
  set_order board_size (surviving valid_moves invalid_moves).

(** ** The backtracking solvers *)

Fixpoint recursive_fuel (fuel : nat) (prev_moves : list Z) (board_size : Z)
  : outcome (gset (list Z)) :=
  match fuel with
  | O => OutOfFuel
  | S fuel =>
      let curr_state := prev_moves in
      let valid_moves := get_valid_moves curr_state board_size in
      if decide (length valid_moves = 0%nat) then Returned ∅
      else if decide (Z.of_nat (length curr_state) = board_size - 1) then
        if decide (length valid_moves = 1%nat)
        then Returned {[curr_state ++ valid_moves]}
        else Raised AssertionError
      else
        for_each
          (λ output move,
             let next_state := curr_state ++ [move] in
             solutions ← recursive_fuel fuel next_state board_size;
             Returned (filter (λ solution, (0 < length solution)%nat)
                              solutions ∪ output))
          ∅ valid_moves
  end.

Fixpoint recursive_fast_fuel (fuel : nat) (prev_moves : list Z)
    (board_size : Z) : outcome (option (list Z)) :=
  match fuel with
  | O => OutOfFuel
  | S fuel =>
      let curr_state := prev_moves in
      let valid_moves := get_valid_moves curr_state board_size in
      if decide (length valid_moves = 0%nat) then Returned None
      else if decide (Z.of_nat (length curr_state) = board_size - 1) then
        if decide (length valid_moves = 1%nat)
        then Returned (Some (curr_state ++ valid_moves))
        else Raised AssertionError
      else
        first_found
          (λ move,
             let next_state := curr_state ++ [move] in
             recursive_fast_fuel fuel next_state board_size)
          valid_moves
  end.

(** Every call appends a row of the board that is not yet used, so the
    calls nest at most [board_size + 1] deep. *)
Definition depth_bound (board_size : Z) : nat := S (Z.to_nat board_size).

Definition recursive (prev_moves : list Z) (board_size : Z)
  : outcome (gset (list Z)) :=
  recursive_fuel (depth_bound board_size) prev_moves board_size.

Definition recursive_fast (prev_moves : list Z) (board_size : Z)
  : outcome (option (list Z)) :=
  recursive_fast_fuel (depth_bound board_size) prev_moves board_size.

(** The calls a run makes: [recursive] on [prev_moves] calls itself on
    [prev_moves ++ [move]] for every move of the loop (as long as no
    earlier call raised); [recursive_fast] reaches a move only when every
    call before it returned [None]. *)
Inductive recursive_call (board_size : Z) : relation (list Z) :=
| recursive_call_move prev_moves move :
    length (get_valid_moves prev_moves board_size) ≠ 0%nat →
    Z.of_nat (length prev_moves) ≠ board_size - 1 →
    move ∈ get_valid_moves prev_moves board_size →
    recursive_call board_size prev_moves (prev_moves ++ [move]).

Inductive recursive_fast_call (board_size : Z) : relation (list Z) :=
| recursive_fast_call_move prev_moves before move after :
    Z.of_nat (length prev_moves) ≠ board_size - 1 →
    get_valid_moves prev_moves board_size = before ++ move :: after →
    Forall (λ m, recursive_fast (prev_moves ++ [m]) board_size
                 = Returned None) before →
    recursive_fast_call board_size prev_moves (prev_moves ++ [move]).

(** The set returned by [get_valid_moves] holds the surviving rows, each
    once: the least that any runtime guarantees. *)
Definition lists_survivors (board_size : Z) : Prop :=
  ∀ prev_moves,
    get_valid_moves prev_moves board_size
    ≡ₚ surviving (range board_size) (invalid_moves_of prev_moves).

(** Every call that a run of [recursive_fast] from the empty board
    reaches iterates over its candidate rows smallest first. *)
Definition branches_ascending (board_size : Z) : Prop :=
  ∀ prev_moves,
    rtc (recursive_fast_call board_size) [] prev_moves →
    StronglySorted Z.lt (get_valid_moves prev_moves board_size).

(** The runtime iterates over that set smallest row first. *)
Definition iterates_ascending (board_size : Z) : Prop :=
  ∀ prev_moves,
    get_valid_moves prev_moves board_size
    = surviving (range board_size) (invalid_moves_of prev_moves).

(** ** The self-test: [test_get_valid_moves] *)

Inductive report :=
| Failed (failed : gset (list Z * Z))
| Passed.

(** [failed.add(solution, move)]: [set.add] takes one argument, and the
    call passes two. *)
Definition add_two (failed : gset (list Z * Z)) (solution : list Z)
    (move : Z) : outcome (gset (list Z * Z)) :=
  Raised TypeError.

(** The self-test over the oracle it calls.  The outer loop goes over a
    set of tuples; whether it ends in a report or in an exception does not
    depend on the order.  What the test prints on the way is left out. *)
Definition test_oracle (oracle : list Z → Z → list Z) (board_size : Z)
  : outcome report :=
  let failed : gset (list Z * Z) := ∅ in
  brute_force_solutions ← fst <$> brute_force board_size;
  failed ←
    for_each
      (λ failed solution,
         for_each
           (λ failed '(row, move),
              let valid_moves := oracle (take row solution) board_size in
              if decide (move ∈ valid_moves) then Returned failed
              else add_two failed solution move)
           failed (enumerate solution))
      failed (elements brute_force_solutions);
  if decide (0 < size failed)%nat then Returned (Failed failed)
  else Returned Passed.

Definition test_get_valid_moves (board_size : Z) : outcome report :=
  test_oracle get_valid_moves board_size.

End Solvers.

(** ** Iteration orders *)

(** Smallest row first. *)
Definition ascending (board_size : Z) (rows : list Z) : list Z := rows.

(** The order of CPython 3.11 ([Objects/setobject.c]).  A set is an
    open-addressing table of [mask + 1] slots, a power of two, and is
    iterated slot by slot; a small integer hashes to itself.  Building
    [set(range(n))] puts row [i] in slot [i].  [difference_update] marks
    the removed rows as dummies, and when more than a quarter of the slots
    are dummies it moves the surviving rows, slot by slot, into a fresh
    table sized for them alone: a row that does not fit there wraps
    around. *)
Module CPython.

Definition PySet_MINSIZE : Z := 8.
Definition LINEAR_PROBES : Z := 9.
Definition PERTURB_SHIFT : Z := 5.

(** [while (newsize <= minused) newsize <<= 1] *)
Fixpoint double_until (fuel : nat) (newsize minused : Z) : Z :=
  match fuel with
  | O => newsize
  | S fuel =>
      if decide (newsize ≤ minused)
      then double_until fuel (newsize ≪ 1) minused
      else newsize
  end.

Definition new_table_size (minused : Z) : Z :=
  double_until (Z.to_nat minused) PySet_MINSIZE minused.

Definition resize_target (used : Z) : Z :=
  if decide (50000 < used) then used * 2 else used * 4.

(** [set_add_key] of a key that is not in the table: the state is
    [(mask, fill)]. *)
Definition add_fresh (state : Z * Z) (key : Z) : Z * Z :=
  let '(mask, fill) := state in
  let fill := fill + 1 in
  if decide (fill * 5 < mask * 3) then (mask, fill)
  else (new_table_size (resize_target fill) - 1, fill).

(** The mask of [set(range(n))]. *)
Definition mask_of_range (n : Z) : Z :=
  fst (foldl add_fresh (PySet_MINSIZE - 1, 0) (range n)).

Definition is_free (table : list (option Z)) (i : Z) : bool :=
  match table !! Z.to_nat i with
  | Some None => true
  | _ => false
  end.

(** The first free slot among [i + 1 .. i + LINEAR_PROBES]. *)
Definition linear_probe (table : list (option Z)) (i : Z) : option Z :=
  list_find (is_free table) ((λ j, i + j) <$> seqZ 1 LINEAR_PROBES)
  ≫= λ found, Some (snd found).

(** The probing loop of [set_insert_clean]. *)
Fixpoint find_slot (fuel : nat) (table : list (option Z))
    (mask perturb i : Z) : option Z :=
  match fuel with
  | O => None
  | S fuel =>
      if is_free table i then Some i
      else
        match (if decide (i + LINEAR_PROBES ≤ mask)
               then linear_probe table i else None) with
        | Some slot => Some slot
        | None =>
            let perturb := perturb ≫ PERTURB_SHIFT in
            find_slot fuel table mask perturb
                      (Z.land (i * 5 + 1 + perturb) mask)
        end
  end.

Definition set_insert_clean (mask : Z) (table : list (option Z))
    (key : Z) : list (option Z) :=
  match find_slot (Z.to_nat (4 * (mask + 1))) table mask key
                  (Z.land key mask) with
  | Some slot => <[Z.to_nat slot := Some key]> table
  | None => table
  end.

(** [set_table_resize]: the keys move in slot order. *)
Definition set_table_resize (keys : list Z) (minused : Z) : list Z :=
  let newsize := new_table_size minused in
  let table :=
    foldl (set_insert_clean (newsize - 1))
          (replicate (Z.to_nat newsize) None) keys in
  omap id table.

(** The table of [size] slots in which every key of [keys] sits in the
    slot of its own value. *)
Definition table_of (size : Z) (keys : list Z) : list (option Z) :=
  (λ i, if decide (i ∈ keys) then Some i else None) <$> seqZ 0 size.

(** [rows] are the survivors of [set(range(n))], smallest first. *)
Definition order (n : Z) (rows : list Z) : list Z :=
  let mask := mask_of_range n in
  let fill := Z.max n 0 in
  let used := Z.of_nat (length rows) in
  if decide (fill - used ≤ mask / 4) then rows
  else set_table_resize rows (resize_target used).

End CPython.

Definition cpython_order : Z → list Z → list Z := CPython.order.

(** Largest row first: an order that no claim relies on, to tell what
    depends on the order from what does not. *)
Definition descending (board_size : Z) (rows : list Z) : list Z :=
  reverse rows.

(** ** Placements *)

(** Row [m] is on the board and no queen of [prev_moves] attacks it in the
    next column. *)
Definition free_row (prev_moves : list Z) (board_size : Z) (m : Z) : Prop :=
  0 ≤ m < board_size ∧
  ∀ idx move, prev_moves !! idx = Some move →
    let shift := Z.of_nat (length prev_moves) - Z.of_nat idx in
    m ≠ move ∧ m ≠ move + shift ∧ m ≠ move - shift.

(** Every queen of the placement stood on a free row when it was placed. *)
Definition stepwise (board_size : Z) (placement : list Z) : Prop :=
  ∀ r m, placement !! r = Some m → free_row (take r placement) board_size m.

(** Rows on the board, no row twice, no two queens on a diagonal. *)
Definition on_board (board_size : Z) (placement : list Z) : Prop :=
  ∀ i x, placement !! i = Some x → 0 ≤ x < board_size.

Definition diagonal_safe (placement : list Z) : Prop :=
  ∀ i j x y, (i < j)%nat → placement !! i = Some x → placement !! j = Some y →
    Z.abs (x - y) ≠ Z.of_nat j - Z.of_nat i.

Definition is_solution (board_size : Z) (placement : list Z) : Prop :=
  Z.of_nat (length placement) = board_size
  ∧ on_board board_size placement
  ∧ NoDup placement
  ∧ diagonal_safe placement.

(** The order of tuples: the first row that differs decides. *)
Fixpoint lex_le (a b : list Z) : Prop :=
  match a, b with
  | [], _ => True
  | _ :: _, [] => False
  | x :: a, y :: b => x < y ∨ (x = y ∧ lex_le a b)
  end.

(** The rows of the board that [prev_moves] has not used. *)
Definition unused (board_size : Z) (prev_moves : list Z) : gset Z :=
  list_to_set (range board_size) ∖ list_to_set prev_moves.

(** [placement] is a full board that continues [prev_moves] one free row
    at a time. *)
Definition completes (board_size : Z) (prev_moves placement : list Z)
  : Prop :=
  prev_moves `prefix_of` placement
  ∧ Z.of_nat (length placement) = board_size
  ∧ stepwise board_size placement.

(** ** The script: [main] and the prompt *)

(** What the script writes: its two banners, the prompt of [input], and
    the line of [main], which shows [recurs_sol]. *)
Inductive output :=
| ScriptStart
| Prompt
| Solution (recurs_sol : option (list Z))
| ScriptEnd.

(** How the script ends: at its last line, or with an exception that
    nothing catches.  [input] raises [EOFError] when no line is left. *)
Inductive ending :=
| Exited
| Uncaught (e : exception)
| UncaughtEOFError
| NoFuel.

Section Script.

Variable set_order : Z → list Z → list Z.

(** [int(user_input)]: the integer that the text denotes, or [None] where
    [int] raises [ValueError]. *)
Variable int : string → option Z.

Definition main (user_input : string) : list output * ending :=
  match int user_input with
  | None => ([], Uncaught ValueError)
  | Some board_size =>
      match recursive_fast set_order [] board_size with
      | Returned recurs_sol => ([Solution recurs_sol], Exited)
      | Raised e => ([], Uncaught e)
      | OutOfFuel => ([], NoFuel)
      end
  end.

(** The [while not valid_input] loop over the lines that are typed; it
    returns the line that ended it. *)
Fixpoint ask (stdin : list string) : list output * (ending + string) :=
  match stdin with
  | [] => ([Prompt], inl UncaughtEOFError)
  | user_input :: stdin =>
      match int user_input with
      | None => ([Prompt], inl (Uncaught ValueError))
      | Some value =>
          if decide (0 < value) then ([Prompt], inr user_input)
          else let '(out, res) := ask stdin in (Prompt :: out, res)
      end
  end.

(** A line that [int] reads as an integer that is not positive: the
    prompt comes again. *)
Definition asks_again (user_input : string) : Prop :=
  ∃ value, int user_input = Some value ∧ value ≤ 0.

Definition script (stdin : list string) : list output * ending :=
  let '(asked, res) := ask stdin in
  match res with
  | inl e => (ScriptStart :: asked, e)
  | inr user_input =>
      let '(shown, e) := main user_input in
      match e with
      | Exited => (ScriptStart :: asked ++ shown ++ [ScriptEnd], Exited)
      | _ => (ScriptStart :: asked ++ shown, e)
      end
  end.

End Script.

(** ** Reflections of the board *)

(** The placement seen in a mirror that swaps row [m] and row
    [board_size - 1 - m]; [reverse] is the mirror that swaps the columns. *)
Definition mirror (board_size : Z) (placement : list Z) : list Z :=
  (λ m, board_size - 1 - m) <$> placement.

(** ** The oracle, as the specification words it *)

(** The rows that the queen of column [idx] takes from column [k]: its own
    and the two on its diagonals. *)
Definition eliminated (k idx : nat) (move : Z) : gset Z :=
  {[ move;
     move + (Z.of_nat k - Z.of_nat idx);
     move - (Z.of_nat k - Z.of_nat idx) ]}.

Definition valid_moves_spec (partial : list Z) (n : Z) : gset Z :=
  list_to_set (seqZ 0 n) ∖ ⋃ (imap (eliminated (length partial)) partial).

(** ** The comparisons of [brute_force], counted pair by pair *)

(** The index pairs [(i, j)] with [i < j] below [len]: [i] ascending and,
    for one [i], [j] ascending. *)
Definition index_pairs (len : nat) : list (nat * nat) :=
  filter (λ ij, (ij.1 < ij.2)%nat) (i ← seq 0 len; pair i <$> seq 0 len).

(** The two queens stand on one diagonal. *)
Definition conflict (permut : list Z) (ij : nat * nat) : bool :=
  bool_decide (Z.abs (permut !!! ij.1 - permut !!! ij.2)
               = Z.of_nat ij.2 - Z.of_nat ij.1).

(** The pairs looked at: up to the first that stops the scan, that one
    included. *)
Fixpoint examined {A} (stop : A → bool) (l : list A) : list A :=
  match l with
  | [] => []
  | x :: l => x :: if stop x then [] else examined stop l
  end.

Definition comparisons (permut : list Z) : nat :=
  length (examined (conflict permut) (index_pairs (length permut))).

Definition total_comparisons (n : Z) : Z :=
  Z.of_nat (sum_list (comparisons <$> permutations (range n) (Z.to_nat n))).

(** * Properties *)

(** ** The oracle *)

Lemma elem_of_enumerate {A} (l : list A) idx x :
  (idx, x) ∈ enumerate l ↔ l !! idx = Some x.
Proof.
  unfold enumerate. rewrite elem_of_lookup_imap. split.
  - intros (i & y & [= -> ->] & H). done.
  - intros H. by exists idx, x.
Qed.

Lemma elem_of_foldl_mark_invalid len items acc x :
  x ∈ foldl (mark_invalid len) acc items ↔
  x ∈ acc ∨ ∃ idx move, (idx, move) ∈ items ∧
    (x = move ∨ x = move + (Z.of_nat len - Z.of_nat idx)
     ∨ x = move - (Z.of_nat len - Z.of_nat idx)).
Proof.
  revert acc. induction items as [|[idx move] items IH]; intros acc; simpl.
  - split; [by left|]. intros [?|(? & ? & H & _)]; [done|].
    by apply elem_of_nil in H.
  - rewrite IH. unfold mark_invalid.
    rewrite !elem_of_union, !elem_of_singleton. split.
    + intros [[->|[->|[->|?]]]|(i & m & Hin & Hx)]; eauto 8 using list_elem_of_here.
      right. exists i, m. split; [by apply list_elem_of_further|done].
    + intros [?|(i & m & Hin & Hx)]; [by eauto 8|].
      apply elem_of_cons in Hin as [[= -> ->]|Hin]; [|by eauto 8].
      left. naive_solver.
Qed.

Lemma elem_of_invalid_moves_of prev_moves x :
  x ∈ invalid_moves_of prev_moves ↔
  ∃ idx move, prev_moves !! idx = Some move ∧
    (x = move ∨ x = move + (Z.of_nat (length prev_moves) - Z.of_nat idx)
     ∨ x = move - (Z.of_nat (length prev_moves) - Z.of_nat idx)).
Proof.
  unfold invalid_moves_of. rewrite elem_of_foldl_mark_invalid.
  setoid_rewrite elem_of_enumerate. set_solver.
Qed.

Lemma elem_of_surviving prev_moves n m :
  m ∈ surviving (range n) (invalid_moves_of prev_moves) ↔ free_row prev_moves n m.
Proof.
  unfold surviving, free_row, range.
  rewrite list_elem_of_filter, elem_of_seqZ, elem_of_invalid_moves_of.
  split.
  - intros [Hno ?]. split; [lia|]. intros idx move Hl; simpl.
    repeat split; intros ->; apply Hno; eauto 8.
  - intros [? Hfree]. split; [|lia].
    intros (idx & move & Hl & Hx). specialize (Hfree _ _ Hl). simpl in Hfree.
    naive_solver.
Qed.

Lemma NoDup_surviving valid_moves invalid_moves :
  NoDup valid_moves → NoDup (surviving valid_moves invalid_moves).
Proof. apply NoDup_filter. Qed.

(** ** Placements built one free row at a time *)

Lemma stepwise_nil n : stepwise n [].
Proof. intros r m H. by rewrite lookup_nil in H. Qed.

Lemma stepwise_app_l n P k : stepwise n (P ++ k) → stepwise n P.
Proof.
  intros H r m Hr. pose proof (lookup_lt_Some _ _ _ Hr) as Hlt.
  specialize (H r m). rewrite lookup_app_l, take_app_le in H by lia. auto.
Qed.

Lemma stepwise_next n P m k : stepwise n (P ++ m :: k) → free_row P n m.
Proof.
  intros H. specialize (H (length P) m).
  rewrite list_lookup_middle, take_app_length in H by done. auto.
Qed.

Lemma stepwise_snoc n P m :
  stepwise n P → free_row P n m → stepwise n (P ++ [m]).
Proof.
  intros HP Hm r x Hr.
  apply lookup_app_Some in Hr as [Hr|[Hge Hr]].
  - pose proof (lookup_lt_Some _ _ _ Hr). rewrite take_app_le by lia. auto.
  - apply list_lookup_singleton_Some in Hr as [Hr ->].
    replace r with (length P) by lia. by rewrite take_app_length.
Qed.

Lemma stepwise_iff n S :
  stepwise n S ↔ on_board n S ∧ NoDup S ∧ diagonal_safe S.
Proof.
  split.
  - intros H. split; [|split].
    + intros i x Hi. by destruct (H i x Hi).
    + apply NoDup_alt. intros i j x Hi Hj.
      destruct (decide (i = j)) as [|Hne]; [done|exfalso].
      assert (∀ a b, (a < b)%nat → S !! a = Some x → S !! b = Some x → False)
        as Hlt.
      { intros a b Hab Ha Hb. destruct (H b x Hb) as [_ Hfree].
        specialize (Hfree a x). rewrite lookup_take_lt in Hfree by done.
        by destruct (Hfree Ha) as [? _]. }
      destruct (decide (i < j)%nat); [by eapply (Hlt i j)|].
      eapply (Hlt j i); [lia|done..].
    + intros i j x y Hij Hi Hj. destruct (H j y Hj) as [_ Hfree].
      specialize (Hfree i x). rewrite lookup_take_lt in Hfree by done.
      pose proof (lookup_lt_Some _ _ _ Hj).
      rewrite length_take in Hfree. simpl in Hfree.
      destruct (Hfree Hi) as (? & ? & ?). lia.
  - intros (Hboard & Hdup & Hdiag) r m Hr. split; [by eapply Hboard|].
    intros idx move Hidx. simpl.
    pose proof (lookup_lt_Some _ _ _ Hr).
    pose proof (lookup_lt_Some _ _ _ Hidx) as Hlt.
    rewrite length_take in Hlt |- *.
    rewrite lookup_take_lt in Hidx by lia.
    specialize (Hdiag idx r move m ltac:(lia) Hidx Hr).
    assert (m ≠ move).
    { intros ->. pose proof (proj1 (NoDup_alt _) Hdup _ _ _ Hidx Hr). lia. }
    lia.
Qed.

Lemma is_solution_iff n S :
  is_solution n S ↔ Z.of_nat (length S) = n ∧ stepwise n S.
Proof. unfold is_solution. rewrite stepwise_iff. tauto. Qed.

(** A solution uses every row of the board. *)
Lemma is_solution_Permutation n S :
  0 ≤ n → is_solution n S ↔ S ≡ₚ range n ∧ diagonal_safe S.
Proof.
  intros Hn. unfold is_solution, range. split.
  - intros (Hlen & Hboard & Hdup & Hdiag). split; [|done].
    apply submseteq_length_Permutation.
    + apply NoDup_submseteq; [done|]. intros x Hx.
      apply list_elem_of_lookup in Hx as [i Hi]. apply elem_of_seqZ.
      specialize (Hboard _ _ Hi). lia.
    + rewrite length_seqZ. lia.
  - intros [Hperm Hdiag]. split; [|split; [|split]]; [| | |done].
    + rewrite Hperm, length_seqZ. lia.
    + intros i x Hi. apply list_elem_of_lookup_2 in Hi.
      rewrite Hperm in Hi. apply elem_of_seqZ in Hi. lia.
    + rewrite Hperm. apply NoDup_seqZ.
Qed.

Lemma completes_nil n S : completes n [] S ↔ is_solution n S.
Proof.
  unfold completes. rewrite is_solution_iff.
  split; [tauto|]. intros. split; [apply prefix_nil|done].
Qed.

Lemma completes_stepwise n P S : completes n P S → stepwise n P.
Proof. intros ([k ->] & _ & H). by eapply stepwise_app_l. Qed.

Lemma completes_snoc n P m S : completes n (P ++ [m]) S → completes n P S.
Proof. intros (Hpre & ? & ?). split; [by eapply prefix_app_l|done]. Qed.

Lemma completes_next n P S :
  completes n P S → Z.of_nat (length P) < n →
  ∃ m, free_row P n m ∧ completes n (P ++ [m]) S.
Proof.
  intros ([k ->] & Hlen & Hstep) Hlt. rewrite length_app in Hlen.
  destruct k as [|m k]; [simpl in Hlen; lia|].
  exists m. split; [by eapply stepwise_next|].
  split; [|split].
  - exists k. by rewrite <-(assoc_L (++)).
  - rewrite length_app. simpl in *. lia.
  - done.
Qed.

Lemma completes_last n P S :
  stepwise n P → Z.of_nat (length P) = n - 1 →
  completes n P S ↔ ∃ m, free_row P n m ∧ S = P ++ [m].
Proof.
  intros HP Hlen. split.
  - intros HS. destruct (completes_next n P S HS) as (m & Hm & HS'); [lia|].
    exists m. split; [done|].
    destruct HS' as ([k ->] & Hlen' & _).
    rewrite !length_app in Hlen'. simpl in Hlen'.
    destruct k; [by rewrite (right_id_L [] (++))|simpl in Hlen'; lia].
  - intros (m & Hm & ->). split; [by apply prefix_app_r|split].
    + rewrite length_app. simpl. lia.
    + by apply stepwise_snoc.
Qed.

(** ** The loops *)

Lemma for_each_collect (f : Z → outcome (gset (list Z)))
    (Q : Z → list Z → Prop) l acc :
  (∀ m, m ∈ l → ∃ X, f m = Returned X ∧ ∀ S, S ∈ X ↔ Q m S) →
  ∃ Y,
    for_each
      (λ output move,
         solutions ← f move;
         Returned (filter (λ solution, (0 < length solution)%nat) solutions
                   ∪ output))
      acc l = Returned Y
    ∧ ∀ S, S ∈ Y ↔ S ∈ acc ∨ ∃ m, m ∈ l ∧ Q m S ∧ (0 < length S)%nat.
Proof.
  revert acc. induction l as [|m l IH]; intros acc Hf; simpl.
  - exists acc. split; [done|]. intros S. split; [by left|].
    intros [?|(? & H & _)]; [done|]. by apply elem_of_nil in H.
  - destruct (Hf m) as (X & -> & HX); [left|]. simpl.
    destruct (IH (filter (λ solution, (0 < length solution)%nat) X ∪ acc))
      as (Y & -> & HY).
    { intros m' Hm'. apply Hf. by right. }
    exists Y. split; [done|]. intros S.
    rewrite HY, elem_of_union, elem_of_filter, HX.
    setoid_rewrite elem_of_cons. naive_solver.
Qed.

Lemma first_found_inv {A B} (f : A → outcome (option B)) l r :
  first_found f l = Returned r →
  match r with
  | Some s =>
      ∃ before x after, l = before ++ x :: after
        ∧ Forall (λ y, f y = Returned None) before
        ∧ f x = Returned (Some s)
  | None => Forall (λ y, f y = Returned None) l
  end.
Proof.
  revert r. induction l as [|x l IH]; intros r; simpl.
  - intros [= <-]. constructor.
  - destruct (f x) as [[s|]| |] eqn:Hx; simpl; try done.
    + intros [= <-]. exists [], x, l. by repeat split.
    + intros H. specialize (IH _ H). destruct r as [s|].
      * destruct IH as (before & y & after & -> & Hb & Hy).
        exists (x :: before), y, after. repeat split; [|done]. by constructor.
      * by constructor.
Qed.

Lemma first_found_returns {A B} (f : A → outcome (option B)) l :
  (∀ x, x ∈ l → ∃ r, f x = Returned r) → ∃ r, first_found f l = Returned r.
Proof.
  induction l as [|x l IH]; intros Hf; simpl; [by eexists|].
  destruct (Hf x) as [[s|] ->]; [left|by eexists|]. simpl.
  apply IH. intros y Hy. apply Hf. by right.
Qed.

(** More fuel does not change a result. *)
Lemma for_each_more_fuel {A S} (body body' : S → A → outcome S) l s :
  (∀ s x, x ∈ l → body s x ≠ OutOfFuel → body' s x = body s x) →
  for_each body s l ≠ OutOfFuel →
  for_each body' s l = for_each body s l.
Proof.
  revert s. induction l as [|x l IH]; intros s Hb Hres; simpl in *; [done|].
  destruct (body s x) as [s'| |] eqn:Hx; simpl in *; [| |done].
  - rewrite Hb, Hx by (by left || by rewrite Hx). simpl.
    apply IH; [|done]. intros s0 y Hy. apply Hb. by right.
  - by rewrite Hb, Hx by (by left || by rewrite Hx).
Qed.

Lemma first_found_more_fuel {A B} (f f' : A → outcome (option B)) l :
  (∀ x, x ∈ l → f x ≠ OutOfFuel → f' x = f x) →
  first_found f l ≠ OutOfFuel →
  first_found f' l = first_found f l.
Proof.
  induction l as [|x l IH]; intros Hf Hres; simpl in *; [done|].
  destruct (f x) as [[s|]| |] eqn:Hx; simpl in *; [| | |done].
  - by rewrite Hf, Hx by (by left || by rewrite Hx).
  - rewrite Hf, Hx by (by left || by rewrite Hx). simpl.
    apply IH; [|done]. intros y Hy. apply Hf. by right.
  - by rewrite Hf, Hx by (by left || by rewrite Hx).
Qed.

Lemma for_each_in_time {A S} (body : S → A → outcome S) l s :
  (∀ s x, x ∈ l → body s x ≠ OutOfFuel) → for_each body s l ≠ OutOfFuel.
Proof.
  revert s. induction l as [|x l IH]; intros s Hb; simpl; [done|].
  destruct (body s x) as [s'| |] eqn:Hx; simpl; [|done|].
  - apply IH. intros s0 y Hy. apply Hb. by right.
  - by destruct (Hb s x); [left|].
Qed.

Lemma first_found_in_time {A B} (f : A → outcome (option B)) l :
  (∀ x, x ∈ l → f x ≠ OutOfFuel) → first_found f l ≠ OutOfFuel.
Proof.
  induction l as [|x l IH]; intros Hf; simpl; [done|].
  destruct (f x) as [[s|]| |] eqn:Hx; simpl; [done| |done|].
  - apply IH. intros y Hy. apply Hf. by right.
  - by destruct (Hf x); [left|].
Qed.

Lemma for_each_ext {A S} (body body' : S → A → outcome S) l s :
  (∀ s x, x ∈ l → body s x = body' s x) →
  for_each body s l = for_each body' s l.
Proof.
  revert s. induction l as [|x l IH]; intros s Hb; simpl; [done|].
  rewrite Hb by left. destruct (body' s x); simpl; [|done..].
  apply IH. intros s0 y Hy. apply Hb. by right.
Qed.

Lemma first_found_ext {A B} (f g : A → outcome (option B)) l :
  (∀ x, x ∈ l → f x = g x) → first_found f l = first_found g l.
Proof.
  induction l as [|x l IH]; intros Hfg; simpl; [done|].
  rewrite Hfg by left. destruct (g x) as [[s|]| |]; simpl; try done.
  apply IH. intros y Hy. apply Hfg. by right.
Qed.

Lemma lex_le_refl a : lex_le a a.
Proof. induction a; simpl; auto. Qed.

Lemma lex_le_app P a b : lex_le (P ++ a) (P ++ b) ↔ lex_le a b.
Proof. induction P as [|x P IH]; simpl; [done|]. rewrite IH. intuition lia. Qed.

Lemma StronglySorted_filter {A} (R : relation A) (P : A → Prop)
    `{!∀ x, Decision (P x)} l :
  StronglySorted R l → StronglySorted R (filter P l).
Proof.
  induction 1 as [|x l Hl IH Hx]; [constructor|].
  rewrite filter_cons. case_decide; [|done].
  constructor; [done|]. apply Forall_forall. intros y Hy.
  apply list_elem_of_filter in Hy as [_ Hy].
  by eapply Forall_forall in Hx.
Qed.

Lemma StronglySorted_range n : StronglySorted Z.lt (range n).
Proof.
  unfold range, seqZ. apply StronglySorted_fmap with (R1 := lt).
  - intros i j Hij. lia.
  - generalize 0%nat. induction (Z.to_nat n) as [|k IH]; intros a; simpl.
    + constructor.
    + constructor; [apply IH|]. apply Forall_seq. intros; lia.
Qed.

Lemma StronglySorted_surviving n invalid_moves :
  StronglySorted Z.lt (surviving (range n) invalid_moves).
Proof. apply StronglySorted_filter, StronglySorted_range. Qed.

(** ** The backtracking solvers *)

Lemma recursive_fuel_more set_order n fuel fuel' P :
  (fuel ≤ fuel')%nat →
  recursive_fuel set_order fuel P n ≠ OutOfFuel →
  recursive_fuel set_order fuel' P n = recursive_fuel set_order fuel P n.
Proof.
  revert fuel' P. induction fuel as [|fuel IH]; intros fuel' P Hle; [done|].
  destruct fuel' as [|fuel']; [lia|]. simpl.
  repeat case_decide; try done.
  intros Hres. apply for_each_more_fuel; [|done].
  intros output m _ Hm. rewrite IH; [done|lia|].
  by destruct (recursive_fuel set_order fuel (P ++ [m]) n).
Qed.

Lemma recursive_fast_fuel_more set_order n fuel fuel' P :
  (fuel ≤ fuel')%nat →
  recursive_fast_fuel set_order fuel P n ≠ OutOfFuel →
  recursive_fast_fuel set_order fuel' P n
  = recursive_fast_fuel set_order fuel P n.
Proof.
  revert fuel' P. induction fuel as [|fuel IH]; intros fuel' P Hle; [done|].
  destruct fuel' as [|fuel']; [lia|]. simpl.
  repeat case_decide; try done.
  intros Hres. apply first_found_more_fuel; [|done].
  intros m _ Hm. apply IH; [lia|done].
Qed.

Section Backtracking.

Variable set_order : Z → list Z → list Z.
Variable n : Z.
Hypothesis order_ok : lists_survivors set_order n.

Lemma elem_of_get_valid_moves P m :
  m ∈ get_valid_moves set_order P n ↔ free_row P n m.
Proof. rewrite (order_ok P). apply elem_of_surviving. Qed.

Lemma NoDup_get_valid_moves P : NoDup (get_valid_moves set_order P n).
Proof. rewrite (order_ok P). apply NoDup_surviving, NoDup_seqZ. Qed.

(** With one column left, one row at most is free. *)
Lemma length_valid_moves_last P :
  stepwise n P → Z.of_nat (length P) = n - 1 →
  (length (get_valid_moves set_order P n) ≤ 1)%nat.
Proof.
  intros HP Hlen. apply stepwise_iff in HP as (Hboard & Hdup & _).
  set (A := list_to_set (range n) : gset Z).
  set (B := list_to_set P : gset Z).
  set (V := list_to_set (get_valid_moves set_order P n) : gset Z).
  assert (B ⊆ A) as HBA.
  { intros x. unfold A, B, range.
    rewrite !elem_of_list_to_set, elem_of_seqZ.
    intros [i Hi]%list_elem_of_lookup. specialize (Hboard _ _ Hi). lia. }
  assert (V ⊆ A ∖ B) as HV.
  { intros x. unfold V, A, B, range.
    rewrite elem_of_difference, !elem_of_list_to_set, elem_of_seqZ.
    rewrite elem_of_get_valid_moves. intros [? Hfree]. split; [lia|].
    intros [i Hi]%list_elem_of_lookup.
    by destruct (Hfree _ _ Hi) as [? _]. }
  apply subseteq_size in HV. rewrite size_difference in HV by done.
  unfold V, A, B in HV.
  rewrite !size_list_to_set in HV
    by (done || apply NoDup_seqZ || apply NoDup_get_valid_moves).
  unfold range in HV. rewrite length_seqZ in HV. lia.
Qed.

Lemma recursive_fuel_spec fuel P :
  stepwise n P → Z.of_nat (length P) < n →
  n - Z.of_nat (length P) ≤ Z.of_nat fuel →
  ∃ X, recursive_fuel set_order fuel P n = Returned X
       ∧ ∀ S, S ∈ X ↔ completes n P S.
Proof.
  revert P. induction fuel as [|fuel IH]; intros P HP Hlt Hfuel; [lia|].
  simpl. pose proof (elem_of_get_valid_moves P) as Hvalid.
  pose proof (length_valid_moves_last P HP) as Hlast.
  destruct (get_valid_moves set_order P n) as [|m0 valid] eqn:Hv.
  - rewrite decide_True by done. exists ∅. split; [done|]. intros S.
    split; [set_solver|]. intros HS.
    destruct (completes_next n P S HS Hlt) as (m & Hm & _).
    apply Hvalid in Hm. by apply elem_of_nil in Hm.
  - rewrite decide_False by done. case_decide as Hlen.
    + specialize (Hlast Hlen). destruct valid; [|simpl in Hlast; lia].
      rewrite decide_True by done. eexists. split; [done|]. intros S.
      rewrite elem_of_singleton, completes_last by done.
      setoid_rewrite <-Hvalid. setoid_rewrite list_elem_of_singleton.
      naive_solver.
    + rewrite <-Hv.
      destruct (for_each_collect
                  (λ move, recursive_fuel set_order fuel (P ++ [move]) n)
                  (λ m S, completes n (P ++ [m]) S)
                  (get_valid_moves set_order P n) ∅) as (Y & HY & HYspec).
      { intros m Hm. rewrite Hv in Hm. apply Hvalid in Hm. apply IH.
        - by apply stepwise_snoc.
        - rewrite length_app. simpl. lia.
        - rewrite length_app. simpl. lia. }
      exists Y. split; [exact HY|]. intros S. rewrite HYspec, Hv. split.
      * intros [?|(m & _ & HS & _)]; [set_solver|]. by eapply completes_snoc.
      * intros HS. right.
        destruct (completes_next n P S HS Hlt) as (m & Hm & HS').
        exists m. split; [by apply Hvalid|]. split; [done|].
        destruct HS as (_ & HlenS & _). lia.
Qed.

Lemma recursive_fast_fuel_spec fuel P :
  stepwise n P → Z.of_nat (length P) < n →
  n - Z.of_nat (length P) ≤ Z.of_nat fuel →
  ∃ r, recursive_fast_fuel set_order fuel P n = Returned r
       ∧ match r with
         | Some sol => completes n P sol
         | None => ∀ sol, ¬ completes n P sol
         end.
Proof.
  revert P. induction fuel as [|fuel IH]; intros P HP Hlt Hfuel; [lia|].
  simpl. pose proof (elem_of_get_valid_moves P) as Hvalid.
  pose proof (length_valid_moves_last P HP) as Hlast.
  destruct (get_valid_moves set_order P n) as [|m0 valid] eqn:Hv.
  - rewrite decide_True by done. exists None. split; [done|]. intros S HS.
    destruct (completes_next n P S HS Hlt) as (m & Hm & _).
    apply Hvalid in Hm. by apply elem_of_nil in Hm.
  - rewrite decide_False by done. case_decide as Hlen.
    + specialize (Hlast Hlen). destruct valid; [|simpl in Hlast; lia].
      rewrite decide_True by done. eexists. split; [done|]. simpl.
      apply completes_last; [done..|]. exists m0. split; [|done].
      apply Hvalid. by left.
    + rewrite <-Hv in *. clear Hv.
      assert (∀ m, m ∈ get_valid_moves set_order P n →
                ∃ r, recursive_fast_fuel set_order fuel (P ++ [m]) n
                     = Returned r
                     ∧ match r with
                       | Some sol => completes n (P ++ [m]) sol
                       | None => ∀ sol, ¬ completes n (P ++ [m]) sol
                       end) as Hsub.
      { intros m Hm. apply Hvalid in Hm. apply IH.
        - by apply stepwise_snoc.
        - rewrite length_app. simpl. lia.
        - rewrite length_app. simpl. lia. }
      destruct (first_found_returns
                  (λ move, recursive_fast_fuel set_order fuel (P ++ [move]) n)
                  (get_valid_moves set_order P n)) as [r Hr].
      { intros m Hm. destruct (Hsub m Hm) as (r & ? & _). by exists r. }
      exists r. split; [exact Hr|].
      apply first_found_inv in Hr. destruct r as [sol|].
      * destruct Hr as (before & x & after & Hsplit & _ & Hx).
        destruct (Hsub x) as (r & Hr & Hspec).
        { rewrite Hsplit. set_solver. }
        simpl in Hx. rewrite Hr in Hx. injection Hx as ->.
        by eapply completes_snoc.
      * intros S HS.
        destruct (completes_next n P S HS Hlt) as (m & Hm & HS').
        apply Hvalid in Hm. destruct (Hsub m Hm) as (r & Hr' & Hspec).
        eapply Forall_forall in Hr; [|exact Hm]. simpl in Hr.
        rewrite Hr in Hr'. injection Hr' as <-. by eapply Hspec.
Qed.

(** *** Termination: every call uses up a row *)

Lemma unused_snoc P m :
  free_row P n m → (size (unused n (P ++ [m])) < size (unused n P))%nat.
Proof.
  intros [Hm Hfree]. apply subset_size.
  assert (m ∈ unused n P) as Hin.
  { unfold unused, range.
    rewrite elem_of_difference, !elem_of_list_to_set, elem_of_seqZ.
    split; [lia|]. intros [i Hi]%list_elem_of_lookup.
    by destruct (Hfree _ _ Hi) as [? _]. }
  split.
  - unfold unused. rewrite list_to_set_app_L. set_solver.
  - intros Hsub. apply Hsub in Hin. unfold unused in Hin.
    rewrite list_to_set_app_L in Hin. set_solver.
Qed.

Lemma size_unused P : (size (unused n P) ≤ Z.to_nat n)%nat.
Proof.
  unfold unused, range.
  etrans; [apply subseteq_size, subseteq_difference_l; reflexivity|].
  rewrite size_list_to_set by apply NoDup_seqZ. by rewrite length_seqZ.
Qed.

Lemma recursive_fuel_in_time fuel P :
  (size (unused n P) < fuel)%nat →
  recursive_fuel set_order fuel P n ≠ OutOfFuel.
Proof.
  revert P. induction fuel as [|fuel IH]; intros P Hfuel; [lia|]. simpl.
  repeat case_decide; try done.
  apply for_each_in_time. intros output m Hm.
  apply elem_of_get_valid_moves, unused_snoc in Hm.
  specialize (IH (P ++ [m]) ltac:(lia)).
  by destruct (recursive_fuel set_order fuel (P ++ [m]) n).
Qed.

Lemma recursive_fast_fuel_in_time fuel P :
  (size (unused n P) < fuel)%nat →
  recursive_fast_fuel set_order fuel P n ≠ OutOfFuel.
Proof.
  revert P. induction fuel as [|fuel IH]; intros P Hfuel; [lia|]. simpl.
  repeat case_decide; try done.
  apply first_found_in_time. intros m Hm.
  apply elem_of_get_valid_moves, unused_snoc in Hm. apply IH. lia.
Qed.

Lemma recursive_in_time P : recursive set_order P n ≠ OutOfFuel.
Proof.
  apply recursive_fuel_in_time. pose proof (size_unused P).
  unfold depth_bound. lia.
Qed.

Lemma recursive_fast_in_time P : recursive_fast set_order P n ≠ OutOfFuel.
Proof.
  apply recursive_fast_fuel_in_time. pose proof (size_unused P).
  unfold depth_bound. lia.
Qed.

(** Given enough fuel, a run does not depend on it. *)
Lemma recursive_fuel_enough fuel P :
  (size (unused n P) < fuel)%nat →
  recursive_fuel set_order fuel P n = recursive set_order P n.
Proof.
  intros Hfuel. unfold recursive.
  destruct (decide (fuel ≤ depth_bound n)%nat).
  - symmetry. apply recursive_fuel_more; [done|].
    by apply recursive_fuel_in_time.
  - apply recursive_fuel_more; [lia|]. apply recursive_in_time.
Qed.

Lemma recursive_fast_fuel_enough fuel P :
  (size (unused n P) < fuel)%nat →
  recursive_fast_fuel set_order fuel P n = recursive_fast set_order P n.
Proof.
  intros Hfuel. unfold recursive_fast.
  destruct (decide (fuel ≤ depth_bound n)%nat).
  - symmetry. apply recursive_fast_fuel_more; [done|].
    by apply recursive_fast_fuel_in_time.
  - apply recursive_fast_fuel_more; [lia|]. apply recursive_fast_in_time.
Qed.

(** The runs satisfy the equations that the Python functions read as. *)
Lemma recursive_unfold P :
  recursive set_order P n
  = let valid_moves := get_valid_moves set_order P n in
    if decide (length valid_moves = 0%nat) then Returned ∅
    else if decide (Z.of_nat (length P) = n - 1) then
      if decide (length valid_moves = 1%nat)
      then Returned {[P ++ valid_moves]}
      else Raised AssertionError
    else
      for_each
        (λ output move,
           solutions ← recursive set_order (P ++ [move]) n;
           Returned (filter (λ solution, (0 < length solution)%nat)
                            solutions ∪ output))
        ∅ valid_moves.
Proof.
  unfold recursive at 1. unfold depth_bound. simpl.
  repeat case_decide; try done.
  apply for_each_ext. intros output m Hm.
  rewrite recursive_fuel_enough; [done|].
  apply elem_of_get_valid_moves, unused_snoc in Hm.
  pose proof (size_unused P). lia.
Qed.

Lemma recursive_fast_unfold P :
  recursive_fast set_order P n
  = let valid_moves := get_valid_moves set_order P n in
    if decide (length valid_moves = 0%nat) then Returned None
    else if decide (Z.of_nat (length P) = n - 1) then
      if decide (length valid_moves = 1%nat)
      then Returned (Some (P ++ valid_moves))
      else Raised AssertionError
    else
      first_found (λ move, recursive_fast set_order (P ++ [move]) n)
                  valid_moves.
Proof.
  unfold recursive_fast at 1. unfold depth_bound. simpl.
  repeat case_decide; try done.
  apply first_found_ext. intros m Hm.
  apply recursive_fast_fuel_enough.
  apply elem_of_get_valid_moves, unused_snoc in Hm.
  pose proof (size_unused P). lia.
Qed.

End Backtracking.


(** ** The permutation solver *)

Lemma elem_of_selections {A} (l : list A) x rest :
  (x, rest) ∈ selections l ↔ ∃ l1 l2, l = l1 ++ x :: l2 ∧ rest = l1 ++ l2.
Proof.
  revert rest. induction l as [|y l IH]; intros rest; simpl.
  - rewrite elem_of_nil. split; [done|]. intros ([|??] & ? & ? & _); done.
  - rewrite elem_of_cons, list_elem_of_fmap. split.
    + intros [[= -> ->]|([x' rest'] & [= -> ->] & Hin)].
      * by exists [], l.
      * apply IH in Hin as (l1 & l2 & -> & ->). by exists (y :: l1), l2.
    + intros ([|z l1] & l2 & Hl & ->); simplify_eq/=; [by left|].
      right. exists (x, l1 ++ l2). split; [done|]. apply IH. eauto.
Qed.

Lemma elem_of_permutations {A} (l : list A) r p :
  p ∈ permutations l r ↔ length p = r ∧ p ⊆+ l.
Proof.
  revert l p. induction r as [|r IH]; intros l p; simpl.
  - rewrite list_elem_of_singleton. split.
    + intros ->. split; [done|]. apply submseteq_nil_l.
    + intros [Hlen _]. by destruct p.
  - rewrite list_elem_of_bind. split.
    + intros ([x rest] & Hp & Hsel).
      apply list_elem_of_fmap in Hp as (p' & -> & Hp').
      apply IH in Hp' as [<- Hsub].
      apply elem_of_selections in Hsel as (l1 & l2 & -> & ->).
      split; [done|]. rewrite <-Permutation_middle. by apply submseteq_skip.
    + intros [Hlen Hsub]. destruct p as [|x p']; [done|].
      apply submseteq_cons_l in Hsub as (k & Hk & Hsub).
      assert (x ∈ l) as (l1 & l2 & ->)%list_elem_of_split
        by (rewrite Hk; left).
      exists (x, l1 ++ l2). split.
      * apply list_elem_of_fmap. exists p'. split; [done|]. apply IH.
        split; [by simplify_eq/=|].
        rewrite <-Permutation_middle in Hk.
        apply (inj (cons x)) in Hk. by rewrite Hk.
      * apply elem_of_selections. eauto.
Qed.

Lemma elem_of_permutations_range n p :
  p ∈ permutations (range n) (Z.to_nat n) ↔ p ≡ₚ range n.
Proof.
  rewrite elem_of_permutations. unfold range. split.
  - intros [Hlen Hsub]. apply submseteq_length_Permutation; [done|].
    rewrite length_seqZ. lia.
  - intros Hp. rewrite Hp at 1. rewrite length_seqZ. split; [done|].
    by rewrite Hp.
Qed.

(** *** The scan of one permutation *)

Lemma examined_app {A} (stop : A → bool) l1 l2 :
  examined stop (l1 ++ l2)
  = if existsb stop l1 then examined stop l1 else l1 ++ examined stop l2.
Proof.
  induction l1 as [|x l1 IH]; simpl; [done|].
  destruct (stop x); simpl; [done|]. rewrite IH. by destruct (existsb stop l1).
Qed.

Lemma examined_all {A} (stop : A → bool) l :
  existsb stop l = false → examined stop l = l.
Proof.
  induction l as [|x l IH]; simpl; [done|].
  destruct (stop x); simpl; [done|]. intros H. by rewrite IH.
Qed.

Lemma scan_row_spec permut i js c :
  scan_row permut i (permut !!! i) js c
  = (c + Z.of_nat (length (examined (conflict permut) (pair i <$> js))),
     existsb (conflict permut) (pair i <$> js)).
Proof.
  revert c. induction js as [|j js IH]; intros c.
  - simpl. f_equal. lia.
  - rewrite fmap_cons. cbn [scan_row examined existsb].
    destruct (conflict permut (i, j)) eqn:Hc; unfold conflict in Hc;
      simpl in Hc.
    + apply bool_decide_eq_true in Hc. rewrite decide_True by done.
      simpl. f_equal.
    + apply bool_decide_eq_false in Hc. rewrite decide_False by done.
      rewrite IH. simpl. f_equal. lia.
Qed.

Lemma scan_rows_spec permut idxs c :
  let pairs := i ← idxs; pair i <$> range_from (i + 1) (length permut) in
  scan_rows permut ((λ i, (i, permut !!! i)) <$> idxs) c
  = (c + Z.of_nat (length (examined (conflict permut) pairs)),
     existsb (conflict permut) pairs).
Proof.
  cbv zeta. revert c. induction idxs as [|i idxs IH]; intros c.
  - simpl. f_equal. lia.
  - rewrite fmap_cons, bind_cons, examined_app, existsb_app.
    cbn [scan_rows]. rewrite scan_row_spec.
    destruct (existsb _ (pair i <$> _)) eqn:Hrow; simpl; [done|].
    rewrite IH. simpl. f_equal.
    rewrite (examined_all _ _ Hrow), length_app. lia.
Qed.

Lemma enumerate_drop_last (permut : list Z) :
  enumerate (drop_last permut)
  = (λ i, (i, permut !!! i)) <$> seq 0 (length permut - 1).
Proof.
  unfold enumerate, drop_last. apply list_eq. intros i.
  rewrite list_lookup_imap, list_lookup_fmap.
  destruct (decide (i < length permut - 1)%nat) as [Hi|Hi].
  - rewrite lookup_take_lt, lookup_seq_lt by done. simpl.
    destruct (permut !! i) as [x|] eqn:Hx.
    + simpl. by erewrite list_lookup_total_correct.
    + apply lookup_ge_None in Hx. lia.
  - rewrite lookup_take_ge, lookup_seq_ge by lia. done.
Qed.

Lemma filter_all {A} (P : A → Prop) `{!∀ x, Decision (P x)} l :
  Forall P l → filter P l = l.
Proof.
  induction 1 as [|x l Hx _ IH]; [done|].
  by rewrite filter_cons_True, IH.
Qed.

Lemma filter_none {A} (P : A → Prop) `{!∀ x, Decision (P x)} l :
  Forall (λ x, ¬ P x) l → filter P l = [].
Proof.
  induction 1 as [|x l Hx _ IH]; [done|]. by rewrite filter_cons_False.
Qed.

Lemma filter_bind {A B} (P : B → Prop) `{!∀ x, Decision (P x)}
    (f : A → list B) l :
  filter P (l ≫= f) = l ≫= λ x, filter P (f x).
Proof.
  induction l as [|x l IH]; [done|].
  by rewrite !bind_cons, filter_app, IH.
Qed.

Lemma bind_ext_elem_of {A B} (f g : A → list B) l :
  (∀ x, x ∈ l → f x = g x) → l ≫= f = l ≫= g.
Proof.
  induction l as [|x l IH]; intros Hfg; [done|].
  rewrite !bind_cons, Hfg, IH; [done| |left]. intros y Hy. apply Hfg. by right.
Qed.

(** The loops of [brute_force] visit the pairs in the order of
    [index_pairs]; the last index has no partner, which is why the outer
    loop may leave it out. *)
Lemma index_pairs_loops len :
  index_pairs len
  = i ← seq 0 (len - 1); pair i <$> range_from (i + 1) len.
Proof.
  unfold index_pairs, range_from. rewrite filter_bind.
  transitivity (i ← seq 0 len; pair i <$> seq (i + 1) (len - (i + 1))).
  - apply bind_ext_elem_of. intros i Hi. apply elem_of_seq in Hi.
    replace (seq 0 len) with (seq 0 ((i + 1) + (len - (i + 1))))
      by (f_equal; lia).
    rewrite seq_app, Nat.add_0_l.
    rewrite fmap_app, filter_app, filter_none, filter_all; [done|..].
    + apply Forall_fmap, Forall_seq. intros j ?. simpl. lia.
    + apply Forall_fmap, Forall_seq. intros j ?. simpl. lia.
  - destruct len as [|k]; [done|].
    replace (S k - 1)%nat with k by lia.
    rewrite seq_S, bind_app. simpl.
    replace (S k - (k + 1))%nat with 0%nat by lia. simpl.
    by rewrite !(right_id_L [] (++)).
Qed.

Lemma scan_permut permut c :
  scan_rows permut (enumerate (drop_last permut)) c
  = (c + Z.of_nat (comparisons permut),
     existsb (conflict permut) (index_pairs (length permut))).
Proof.
  rewrite enumerate_drop_last, scan_rows_spec. simpl.
  unfold comparisons. by rewrite index_pairs_loops.
Qed.

Lemma existsb_false {A} (f : A → bool) l :
  existsb f l = false ↔ ∀ x, x ∈ l → f x = false.
Proof.
  induction l as [|x l IH]; simpl.
  - split; [|done]. intros _ x Hx. by apply elem_of_nil in Hx.
  - rewrite orb_false_iff, IH. setoid_rewrite elem_of_cons. naive_solver.
Qed.

Lemma elem_of_index_pairs len i j :
  (i, j) ∈ index_pairs len ↔ (i < j < len)%nat.
Proof.
  unfold index_pairs. rewrite list_elem_of_filter, list_elem_of_bind. simpl.
  setoid_rewrite list_elem_of_fmap. setoid_rewrite elem_of_seq. split.
  - intros (? & i' & (j' & [= -> ->] & ?) & ?). lia.
  - intros ?. split; [lia|]. exists i. split; [|lia]. exists j. split; [done|lia].
Qed.

Lemma no_conflict_diagonal_safe permut :
  existsb (conflict permut) (index_pairs (length permut)) = false
  ↔ diagonal_safe permut.
Proof.
  rewrite existsb_false. unfold diagonal_safe, conflict. split.
  - intros H i j x y Hij Hi Hj. pose proof (lookup_lt_Some _ _ _ Hj).
    specialize (H (i, j)). simpl in H.
    rewrite (list_lookup_total_correct _ _ _ Hi),
      (list_lookup_total_correct _ _ _ Hj) in H.
    eapply bool_decide_eq_false_1, H, elem_of_index_pairs. lia.
  - intros H [i j] Hij. apply elem_of_index_pairs in Hij. simpl.
    destruct (lookup_lt_is_Some_2 permut i) as [x Hx]; [lia|].
    destruct (lookup_lt_is_Some_2 permut j) as [y Hy]; [lia|].
    rewrite (list_lookup_total_correct _ _ _ Hx),
      (list_lookup_total_correct _ _ _ Hy).
    apply bool_decide_eq_false_2. eapply H; [|done..]. lia.
Qed.

(** The loop over the permutations: the solutions are the permutations
    without a conflict, the counter adds up the comparisons. *)
Lemma foldl_try_permut perms solutions counter :
  foldl try_permut (solutions, counter) perms
  = (list_to_set
       (filter (λ p, existsb (conflict p) (index_pairs (length p)) = false)
               perms) ∪ solutions,
     counter + Z.of_nat (sum_list (comparisons <$> perms))).
Proof.
  revert solutions counter.
  induction perms as [|p perms IH]; intros solutions counter; simpl.
  - f_equal; [set_solver|lia].
  - rewrite scan_permut, filter_cons.
    destruct (existsb _ _) eqn:Hp; rewrite IH.
    + rewrite decide_False by done. f_equal.
      rewrite Nat2Z.inj_add. symmetry. apply Z.add_assoc.
    + rewrite decide_True by done. f_equal.
      * rewrite list_to_set_cons. set_solver.
      * rewrite Nat2Z.inj_add. symmetry. apply Z.add_assoc.
Qed.

Lemma brute_force_returns n :
  0 ≤ n →
  ∃ solutions,
    brute_force n = Returned (solutions, total_comparisons n)
    ∧ ∀ p, p ∈ solutions ↔ is_solution n p.
Proof.
  intros Hn. unfold brute_force. rewrite decide_False by lia.
  rewrite foldl_try_permut. eexists. split.
  - unfold total_comparisons. by rewrite Z.add_0_l.
  - intros p. rewrite elem_of_union, elem_of_list_to_set, list_elem_of_filter.
    rewrite no_conflict_diagonal_safe, elem_of_permutations_range.
    rewrite is_solution_Permutation by done. set_solver.
Qed.

(** ** The solvers started on the empty board *)

Section FromEmpty.

Variable set_order : Z → list Z → list Z.
Variable n : Z.
Hypothesis order_ok : lists_survivors set_order n.

Lemma get_valid_moves_board_0 P :
  n ≤ 0 → get_valid_moves set_order P n = [].
Proof.
  intros Hn. apply Permutation_nil_r. rewrite (order_ok P).
  unfold surviving, range. by rewrite seqZ_nil.
Qed.

Lemma recursive_nil :
  1 ≤ n →
  ∃ X, recursive set_order [] n = Returned X
       ∧ ∀ p, p ∈ X ↔ is_solution n p.
Proof.
  intros Hn.
  destruct (recursive_fuel_spec set_order n order_ok (depth_bound n) [])
    as (X & HX & Hspec).
  - apply stepwise_nil.
  - simpl. lia.
  - unfold depth_bound. simpl. lia.
  - exists X. split; [done|]. intros p. by rewrite Hspec, completes_nil.
Qed.

Lemma recursive_fast_nil :
  1 ≤ n →
  ∃ r, recursive_fast set_order [] n = Returned r
       ∧ match r with
         | Some sol => is_solution n sol
         | None => ∀ sol, ¬ is_solution n sol
         end.
Proof.
  intros Hn.
  destruct (recursive_fast_fuel_spec set_order n order_ok (depth_bound n) [])
    as (r & Hr & Hspec).
  - apply stepwise_nil.
  - simpl. lia.
  - unfold depth_bound. simpl. lia.
  - exists r. split; [done|]. destruct r as [sol|].
    + by apply completes_nil.
    + intros sol. rewrite <-completes_nil. apply Hspec.
Qed.

(** Every placement that a run is called on was built from free rows. *)
Lemma recursive_call_stepwise P P' :
  recursive_call set_order n P P' → stepwise n P → stepwise n P'.
Proof.
  intros [prev_moves move _ _ Hm] HP. apply stepwise_snoc; [done|].
  by apply (elem_of_get_valid_moves set_order n order_ok).
Qed.

Lemma recursive_fast_call_recursive_call P P' :
  recursive_fast_call set_order n P P' → recursive_call set_order n P P'.
Proof.
  intros [prev_moves before move after Hlen Hsplit _]. constructor.
  - rewrite Hsplit, length_app. simpl. lia.
  - done.
  - rewrite Hsplit. set_solver.
Qed.

Lemma reached_stepwise P : rtc (recursive_call set_order n) [] P → stepwise n P.
Proof.
  revert P. apply rtc_ind_r; [apply stepwise_nil|].
  intros P P' _ Hstep HP. by eapply recursive_call_stepwise.
Qed.

Lemma reached_fast_reached P :
  rtc (recursive_fast_call set_order n) [] P →
  rtc (recursive_call set_order n) [] P.
Proof.
  apply rtc_subrel. apply recursive_fast_call_recursive_call.
Qed.

End FromEmpty.

Lemma ascending_lists_survivors n : lists_survivors ascending n.
Proof. by intros P. Qed.

Lemma ascending_iterates_ascending n : iterates_ascending ascending n.
Proof. by intros P. Qed.

Lemma iterates_ascending_lists_survivors set_order n :
  iterates_ascending set_order n → lists_survivors set_order n.
Proof. intros H P. by rewrite (H P). Qed.

Lemma brute_force_4 :
  brute_force 4 = Returned ({[ [1; 3; 0; 2]; [2; 0; 3; 1] ]}, 62).
Proof. vm_compute. reflexivity. Qed.

(** The small boards, with the sets of CPython. *)
Example small_boards :
  get_valid_moves cpython_order [0] 4 = [2; 3]
  ∧ recursive_fast cpython_order [] 1 = Returned (Some [0])
  ∧ recursive cpython_order [] 1 = Returned {[ [0] ]}
  ∧ recursive_fast cpython_order [] 2 = Returned None
  ∧ recursive cpython_order [] 2 = Returned ∅
  ∧ recursive cpython_order [] 3 = Returned ∅.
Proof. repeat split; by vm_compute. Qed.

(** ** The self-test *)

Lemma for_each_unchanged {A S} (body : S → A → outcome S) l s :
  (∀ x, x ∈ l → body s x = Returned s) → for_each body s l = Returned s.
Proof.
  induction l as [|x l IH]; intros Hb; simpl; [done|].
  rewrite Hb by left. simpl. apply IH. intros y Hy. apply Hb. by right.
Qed.

Lemma for_each_raises {A S} (body : S → A → outcome S) l s e :
  (∀ x, x ∈ l → body s x = Returned s ∨ body s x = Raised e) →
  (∃ x, x ∈ l ∧ body s x = Raised e) →
  for_each body s l = Raised e.
Proof.
  induction l as [|x l IH]; intros Hb (y & Hy & Hraise); simpl.
  - by apply elem_of_nil in Hy.
  - destruct (Hb x) as [Hx|Hx]; [left|..]; rewrite Hx; simpl; [|done].
    apply IH; [intros z Hz; apply Hb; by right|].
    apply elem_of_cons in Hy as [->|Hy]; [congruence|eauto].
Qed.

(** The self-test passes when the oracle lists every step of every
    solution. *)
Lemma test_oracle_passes oracle n :
  0 ≤ n →
  (∀ S row move, is_solution n S → S !! row = Some move →
     move ∈ oracle (take row S) n) →
  test_oracle oracle n = Returned Passed.
Proof.
  intros Hn Hok. unfold test_oracle.
  destruct (brute_force_returns n Hn) as (solutions & -> & Hsol). simpl.
  rewrite for_each_unchanged; [done|].
  intros S HS. apply elem_of_elements, Hsol in HS.
  apply for_each_unchanged. intros [row move] Hrow.
  apply elem_of_enumerate in Hrow. rewrite decide_True; [done|]. eauto.
Qed.

(** The branch that should record a failure calls [set.add] with two
    arguments: had the oracle missed a step, the self-test would end in a
    [TypeError] and report nothing. *)
Lemma test_oracle_raises oracle n :
  0 ≤ n →
  (∃ S row move, is_solution n S ∧ S !! row = Some move
     ∧ move ∉ oracle (take row S) n) →
  test_oracle oracle n = Raised TypeError.
Proof.
  intros Hn (S & row & move & HS & Hrow & Hmiss). unfold test_oracle.
  destruct (brute_force_returns n Hn) as (solutions & -> & Hsol). simpl.
  assert (∀ S' : list Z,
            for_each
              (λ failed '(row, move),
                 if decide (move ∈ oracle (take row S') n)
                 then Returned failed else add_two failed S' move)
              (∅ : gset (list Z * Z)) (enumerate S') = Returned ∅
            ∨ for_each
                (λ failed '(row, move),
                   if decide (move ∈ oracle (take row S') n)
                   then Returned failed else add_two failed S' move)
                (∅ : gset (list Z * Z)) (enumerate S') = Raised TypeError)
    as Hinner.
  { intros S'. induction (enumerate S') as [|[r m] l IH]; simpl; [by left|].
    case_decide; simpl; [done|by right]. }
  rewrite (for_each_raises _ _ _ TypeError); [done|..].
  - intros S' _. apply Hinner.
  - exists S. split; [by apply elem_of_elements, Hsol|].
    apply for_each_raises.
    + intros [r m] _. case_decide; [by left|by right].
    + exists (row, move). split; [by apply elem_of_enumerate|].
      by rewrite decide_False.
Qed.

Example test_oracle_blind_oracle :
  test_oracle (λ _ _, []) 1 = Raised TypeError.
Proof. by vm_compute. Qed.

(** ** The first solution *)

(** A run sees the iteration order only through the sets that
    [get_valid_moves] returns. *)
Lemma recursive_fast_fuel_ext order1 order2 n fuel P :
  (∀ P, get_valid_moves order1 P n = get_valid_moves order2 P n) →
  recursive_fast_fuel order1 fuel P n = recursive_fast_fuel order2 fuel P n.
Proof.
  intros Hext. revert P. induction fuel as [|fuel IH]; intros P; [done|].
  simpl. rewrite Hext. repeat case_decide; try done.
  apply first_found_ext. intros m _. apply IH.
Qed.

Section Ascending.

Variable set_order : Z → list Z → list Z.
Variable n : Z.
Hypothesis ascending_ok : iterates_ascending set_order n.

Let order_ok : lists_survivors set_order n :=
  iterates_ascending_lists_survivors set_order n ascending_ok.

Lemma recursive_fast_fuel_least fuel P first :
  stepwise n P → Z.of_nat (length P) < n →
  n - Z.of_nat (length P) ≤ Z.of_nat fuel →
  recursive_fast_fuel set_order fuel P n = Returned (Some first) →
  ∀ sol, completes n P sol → lex_le first sol.
Proof.
  revert P first.
  induction fuel as [|fuel IH]; intros P first HP Hlt Hfuel Hres sol Hsol;
    [lia|].
  simpl in Hres.
  pose proof (elem_of_get_valid_moves set_order n order_ok P) as Hvalid.
  pose proof (length_valid_moves_last set_order n order_ok P HP) as Hlast.
  assert (StronglySorted Z.lt (get_valid_moves set_order P n)) as Hsorted.
  { rewrite ascending_ok. apply StronglySorted_surviving. }
  case_decide as Hempty; [done|]. case_decide as Hlen.
  - specialize (Hlast Hlen).
    destruct (get_valid_moves set_order P n) as [|m0 [|??]];
      [done| |simpl in Hlast; lia].
    rewrite decide_True in Hres by done. injection Hres as <-.
    apply completes_last in Hsol as (m & Hm & ->); [|done..].
    apply Hvalid, list_elem_of_singleton in Hm as ->. apply lex_le_refl.
  - apply first_found_inv in Hres
      as (before & x & after & Hsplit & Hbefore & Hx).
    destruct (completes_next n P sol Hsol Hlt) as (m & Hm & Hsol').
    assert (∀ m', m' ∈ get_valid_moves set_order P n →
              ∃ r, recursive_fast_fuel set_order fuel (P ++ [m']) n
                   = Returned r
                   ∧ match r with
                     | Some s => completes n (P ++ [m']) s
                     | None => ∀ s, ¬ completes n (P ++ [m']) s
                     end) as Hsub.
    { intros m' Hm'. apply Hvalid in Hm'.
      apply (recursive_fast_fuel_spec set_order n order_ok).
      - by apply stepwise_snoc.
      - rewrite length_app. simpl. lia.
      - rewrite length_app. simpl. lia. }
    apply Hvalid in Hm. rewrite Hsplit in Hm, Hsorted, Hsub.
    apply elem_of_app in Hm as [Hm|Hm];
      [|apply elem_of_cons in Hm as [->|Hm]].
    + exfalso. eapply Forall_forall in Hbefore; [|exact Hm].
      destruct (Hsub m) as (r & Hr & Hspec); [set_solver|].
      simpl in Hbefore. rewrite Hbefore in Hr. injection Hr as <-.
      by eapply Hspec.
    + eapply IH; [| | |exact Hx|exact Hsol'].
      * apply stepwise_snoc; [done|].
        apply Hvalid. rewrite Hsplit. set_solver.
      * rewrite length_app. simpl. lia.
      * rewrite length_app. simpl. lia.
    + destruct (Hsub x) as (r & Hr & Hspec); [set_solver|].
      simpl in Hx. rewrite Hx in Hr. injection Hr as <-.
      destruct Hspec as ([k1 ->] & _). destruct Hsol' as ([k2 ->] & _).
      rewrite <-!(assoc_L (++)). apply lex_le_app. simpl. left.
      apply StronglySorted_app_1_r in Hsorted.
      apply StronglySorted_inv in Hsorted as [_ Hall].
      by eapply Forall_forall in Hall.
Qed.

Lemma recursive_fast_least :
  1 ≤ n → (∃ sol, is_solution n sol) →
  ∃ first, recursive_fast set_order [] n = Returned (Some first)
           ∧ is_solution n first
           ∧ ∀ sol, is_solution n sol → lex_le first sol.
Proof.
  intros Hn [sol Hsol].
  destruct (recursive_fast_nil set_order n order_ok Hn) as (r & Hr & Hspec).
  destruct r as [first|]; [|by destruct (Hspec sol)].
  exists first. split; [done|]. split; [done|].
  intros sol' Hsol'.
  eapply (recursive_fast_fuel_least (depth_bound n) []);
    [apply stepwise_nil|simpl; lia|unfold depth_bound; simpl; lia
    |exact Hr|by apply completes_nil].
Qed.

Lemma recursive_fast_as_ascending P :
  recursive_fast set_order P n = recursive_fast ascending P n.
Proof. apply recursive_fast_fuel_ext. intros P'. apply ascending_ok. Qed.

End Ascending.

Lemma recursive_fast_ascending_8 :
  recursive_fast ascending [] 8 = Returned (Some [0; 4; 7; 5; 2; 6; 1; 3]).
Proof. by vm_compute. Qed.

(** ** The order of CPython *)

Lemma cpython_double_until fuel k minused :
  0 ≤ k → minused < 2 ^ k + Z.of_nat fuel →
  ∃ k', k ≤ k' ∧ CPython.double_until fuel (2 ^ k) minused = 2 ^ k'
        ∧ minused < 2 ^ k'.
Proof.
  revert k. induction fuel as [|fuel IH]; intros k Hk Hfuel; simpl.
  - exists k. repeat split; lia.
  - case_decide as Hle; [|exists k; repeat split; lia].
    rewrite Z.shiftl_mul_pow2 by lia.
    replace (2 ^ k * 2 ^ 1) with (2 ^ (k + 1)) by (rewrite Z.pow_add_r; lia).
    destruct (IH (k + 1)) as (k' & ? & ? & ?); [lia| |].
    + rewrite Z.pow_add_r by lia. pose proof (Z.pow_pos_nonneg 2 k). lia.
    + exists k'. repeat split; [lia|done..].
Qed.

Lemma cpython_new_table_size minused :
  ∃ k, 3 ≤ k ∧ CPython.new_table_size minused = 2 ^ k ∧ minused < 2 ^ k.
Proof.
  unfold CPython.new_table_size, CPython.PySet_MINSIZE.
  change 8 with (2 ^ 3). apply cpython_double_until; lia.
Qed.

Lemma cpython_land_mask k x :
  0 ≤ k → 0 ≤ x < 2 ^ k → Z.land x (2 ^ k - 1) = x.
Proof.
  intros Hk Hx. replace (2 ^ k - 1) with (Z.ones k)
    by (rewrite Z.ones_equiv; lia).
  rewrite Z.land_ones by done. by apply Z.mod_small.
Qed.

Lemma cpython_land_mask_bound k x :
  0 ≤ k → 0 ≤ Z.land x (2 ^ k - 1) < 2 ^ k.
Proof.
  intros Hk. replace (2 ^ k - 1) with (Z.ones k)
    by (rewrite Z.ones_equiv; lia).
  rewrite Z.land_ones by done. apply Z.mod_pos_bound.
  by apply Z.pow_pos_nonneg.
Qed.

Lemma cpython_find_slot_free fuel table mask perturb i :
  CPython.is_free table i = true →
  CPython.find_slot (S fuel) table mask perturb i = Some i.
Proof. intros H. simpl. by rewrite H. Qed.

Lemma cpython_insert_clean_free size table key :
  0 < size →
  CPython.is_free table (Z.land key (size - 1)) = true →
  CPython.set_insert_clean (size - 1) table key
  = <[Z.to_nat (Z.land key (size - 1)) := Some key]> table.
Proof.
  intros Hsize Hfree. unfold CPython.set_insert_clean.
  destruct (Z.to_nat (4 * (size - 1 + 1))) as [|fuel] eqn:Hfuel; [lia|].
  by rewrite cpython_find_slot_free.
Qed.

Lemma cpython_table_of_lookup size keys x :
  0 ≤ x < size →
  CPython.table_of size keys !! Z.to_nat x
  = Some (if decide (x ∈ keys) then Some x else None).
Proof.
  intros Hx. unfold CPython.table_of.
  rewrite list_lookup_fmap, lookup_seqZ_lt by lia. simpl.
  by replace (0 + Z.of_nat (Z.to_nat x)) with x by lia.
Qed.

Lemma cpython_table_of_insert size keys x :
  0 ≤ x < size →
  <[Z.to_nat x := Some x]> (CPython.table_of size keys)
  = CPython.table_of size (x :: keys).
Proof.
  intros Hx. apply list_eq. intros i.
  destruct (decide (i = Z.to_nat x)) as [->|Hne].
  - rewrite list_lookup_insert_eq, cpython_table_of_lookup by
      (done || unfold CPython.table_of;
       rewrite length_fmap, length_seqZ; lia).
    rewrite decide_True by left. done.
  - rewrite list_lookup_insert_ne by done. unfold CPython.table_of.
    rewrite !list_lookup_fmap.
    destruct (seqZ 0 size !! i) as [j|] eqn:Hj; [|done]. simpl.
    apply lookup_seqZ in Hj as [-> ?]. f_equal.
    assert (0 + Z.of_nat i ≠ x) by lia.
    repeat case_decide; set_solver.
Qed.

Lemma cpython_table_of_nil size :
  replicate (Z.to_nat size) None = CPython.table_of size [].
Proof.
  apply list_eq. intros i. unfold CPython.table_of.
  rewrite list_lookup_fmap.
  destruct (decide (i < Z.to_nat size)%nat).
  - by rewrite lookup_replicate_2, lookup_seqZ_lt by lia.
  - rewrite (proj1 (lookup_replicate_None _ _ _)), lookup_seqZ_ge by lia.
    done.
Qed.

(** Rows that are below the size of the new table move to the slots of
    their own values. *)
Lemma cpython_foldl_insert_clean k rows acc :
  0 ≤ k → NoDup (rows ++ acc) → Forall (λ x, 0 ≤ x < 2 ^ k) rows →
  foldl (CPython.set_insert_clean (2 ^ k - 1))
        (CPython.table_of (2 ^ k) acc) rows
  = CPython.table_of (2 ^ k) (reverse rows ++ acc).
Proof.
  intros Hk. revert acc.
  induction rows as [|x rows IH]; intros acc Hdup Hrows; simpl; [done|].
  apply Forall_cons in Hrows as [Hx Hrows].
  apply NoDup_cons in Hdup as [Hnew Hdup].
  rewrite cpython_insert_clean_free.
  - rewrite cpython_land_mask, cpython_table_of_insert by done.
    rewrite reverse_cons, <-(assoc_L (++)). apply IH; [|done].
    apply NoDup_app in Hdup as (? & ? & ?). apply NoDup_app.
    split; [done|]. split; [|apply NoDup_cons; set_solver].
    set_solver.
  - lia.
  - rewrite cpython_land_mask by done. unfold CPython.is_free.
    rewrite cpython_table_of_lookup, decide_False by set_solver. done.
Qed.

#[local] Instance Z_lt_antisymm : AntiSymm (=) Z.lt.
Proof. intros x y ??. lia. Qed.

Lemma StronglySorted_lt_NoDup (l : list Z) : StronglySorted Z.lt l → NoDup l.
Proof.
  induction 1 as [|x l _ IH Hx]; constructor; [|done].
  intros Hin. eapply Forall_forall in Hx; [|done]. lia.
Qed.

Lemma cpython_read_table size rows :
  StronglySorted Z.lt rows → Forall (λ x, 0 ≤ x < size) rows →
  omap id (CPython.table_of size rows) = rows.
Proof.
  intros Hsorted Hrows.
  assert (omap id (CPython.table_of size rows)
          = filter (λ i, i ∈ rows) (seqZ 0 size)) as ->.
  { unfold CPython.table_of. induction (seqZ 0 size) as [|i l IH]; [done|].
    rewrite fmap_cons, filter_cons. simpl.
    destruct (decide (i ∈ rows)); [f_equal|]; exact IH. }
  apply StronglySorted_unique with (R := Z.lt); [apply _| |done|].
  - apply StronglySorted_filter, StronglySorted_range.
  - apply NoDup_Permutation.
    + apply NoDup_filter, NoDup_seqZ.
    + by apply StronglySorted_lt_NoDup.
    + intros x. rewrite list_elem_of_filter, elem_of_seqZ.
      split; [tauto|]. intros Hx. split; [done|].
      eapply Forall_forall in Hrows; [|done]. lia.
Qed.

Lemma cpython_resize_fits rows minused :
  StronglySorted Z.lt rows →
  Forall (λ x, 0 ≤ x < CPython.new_table_size minused) rows →
  CPython.set_table_resize rows minused = rows.
Proof.
  intros Hsorted Hrows. unfold CPython.set_table_resize.
  destruct (cpython_new_table_size minused) as (k & Hk & Hsize & _).
  rewrite Hsize in *. rewrite cpython_table_of_nil.
  rewrite cpython_foldl_insert_clean; [|lia| |done].
  - rewrite (right_id_L [] (++)).
    assert (CPython.table_of (2 ^ k) (reverse rows)
            = CPython.table_of (2 ^ k) rows) as ->.
    { unfold CPython.table_of. apply list_fmap_ext. intros _ i _.
      repeat case_decide; try done; set_solver. }
    by apply cpython_read_table.
  - rewrite (right_id_L [] (++)). by apply StronglySorted_lt_NoDup.
Qed.

Lemma cpython_read_single size i (x : Z) :
  (i < size)%nat → omap id (<[i := Some x]> (replicate size None)) = [x].
Proof.
  revert i. induction size as [|size IH]; intros i Hi; [lia|].
  destruct i as [|i]; simpl.
  - f_equal. clear. induction size as [|size IH]; [done|]. done.
  - apply IH. lia.
Qed.

Lemma cpython_resize_single x minused :
  CPython.set_table_resize [x] minused = [x].
Proof.
  unfold CPython.set_table_resize.
  destruct (cpython_new_table_size minused) as (k & Hk & Hsize & _).
  rewrite Hsize. simpl.
  pose proof (cpython_land_mask_bound k x ltac:(lia)) as Hslot.
  pose proof (Z.pow_pos_nonneg 2 k ltac:(lia) ltac:(lia)).
  rewrite cpython_insert_clean_free; [|lia|].
  - apply cpython_read_single. lia.
  - unfold CPython.is_free. by rewrite lookup_replicate_2 by lia.
Qed.

Lemma cpython_resize_nil minused : CPython.set_table_resize [] minused = [].
Proof.
  unfold CPython.set_table_resize. simpl.
  induction (Z.to_nat _) as [|k IH]; [done|]. done.
Qed.

Lemma cpython_mask_of_range n :
  n ≤ 16 →
  CPython.mask_of_range n = 7 ∨ (5 ≤ n ∧ CPython.mask_of_range n = 31).
Proof.
  intros Hn. destruct (decide (n ≤ 0)).
  { left. unfold CPython.mask_of_range, range. by rewrite seqZ_nil. }
  assert (n ∈ seqZ 1 16) as Hin by (apply elem_of_seqZ; lia).
  vm_compute seqZ in Hin.
  repeat (apply elem_of_cons in Hin as [->|Hin];
          [vm_compute; (by left) || (right; by split)|]).
  by apply elem_of_nil in Hin.
Qed.

(** Up to board size 16 the surviving rows fit the new table: CPython
    iterates over them smallest first. *)
Lemma cpython_order_ascending n rows :
  n ≤ 16 →
  StronglySorted Z.lt rows → Forall (λ x, 0 ≤ x < n) rows →
  cpython_order n rows = rows.
Proof.
  intros Hn Hsorted Hrows. unfold cpython_order, CPython.order.
  case_decide as Hfew; [done|].
  destruct rows as [|x [|y rows]];
    [apply cpython_resize_nil|apply cpython_resize_single|].
  apply cpython_resize_fits; [done|].
  destruct (cpython_new_table_size
              (CPython.resize_target
                 (Z.of_nat (length (x :: y :: rows)))))
    as (k & Hk & -> & Hbig).
  unfold CPython.resize_target in Hbig.
  assert (16 ≤ 2 ^ k).
  { destruct (decide (k = 3)) as [->|]; [case_decide; simpl in *; lia|].
    change 16 with (2 ^ 4). apply Z.pow_le_mono_r; lia. }
  eapply Forall_impl; [done|]. simpl. lia.
Qed.

Lemma cpython_iterates_ascending n :
  n ≤ 16 → iterates_ascending cpython_order n.
Proof.
  intros Hn P. unfold get_valid_moves. apply cpython_order_ascending.
  - done.
  - apply StronglySorted_surviving.
  - apply Forall_forall. intros x Hx.
    apply elem_of_surviving in Hx as [? _]. done.
Qed.

(** ** Orders that are not ascending *)

Lemma first_candidate_called set_order n P m after :
  Z.of_nat (length P) ≠ n - 1 →
  get_valid_moves set_order P n = m :: after →
  recursive_fast_call set_order n P (P ++ [m]).
Proof. intros. by apply (recursive_fast_call_move _ _ P [] m after). Qed.

(** The order decides which solution comes first: largest row first, the
    run on the board of size 4 returns the larger of the two solutions. *)
Lemma descending_first_solution_4 :
  lists_survivors descending 4
  ∧ recursive_fast descending [] 4 = Returned (Some [2; 0; 3; 1])
  ∧ is_solution 4 [1; 3; 0; 2]
  ∧ ¬ lex_le [2; 0; 3; 1] [1; 3; 0; 2].
Proof.
  split; [|split; [by vm_compute|split]].
  - intros P. unfold get_valid_moves, descending. apply reverse_Permutation.
  - destruct (brute_force_returns 4) as (solutions & Hbf & Hsol); [done|].
    rewrite brute_force_4 in Hbf. injection Hbf as <-.
    apply Hsol. set_solver.
  - simpl. lia.
Qed.

(** ** The oracle against its specification *)

Lemma elem_of_valid_moves_spec P n x :
  x ∈ valid_moves_spec P n ↔ free_row P n x.
Proof.
  unfold valid_moves_spec, free_row, eliminated.
  rewrite elem_of_difference, elem_of_list_to_set, elem_of_seqZ,
    elem_of_union_list.
  setoid_rewrite elem_of_lookup_imap. split.
  - intros [? Hno]. split; [lia|]. intros idx move Hidx. simpl.
    repeat split; intros ->; apply Hno; eexists; (split; [eauto|]);
      set_solver.
  - intros [? Hfree]. split; [lia|].
    intros (X & (idx & move & -> & Hidx) & Hx).
    specialize (Hfree _ _ Hidx). simpl in Hfree. set_solver.
Qed.

(** ** Every permutation once *)

Lemma selections_elem_of {A} (l : list A) x rest :
  (x, rest) ∈ selections l → x ∈ l.
Proof. intros (l1 & l2 & -> & _)%elem_of_selections. set_solver. Qed.

Lemma selections_unique {A} (l : list A) x rest1 rest2 :
  NoDup l → (x, rest1) ∈ selections l → (x, rest2) ∈ selections l →
  rest1 = rest2.
Proof.
  intros Hdup. revert rest1 rest2.
  induction Hdup as [|y l Hy Hdup IH]; intros rest1 rest2; simpl.
  - by intros ?%elem_of_nil.
  - rewrite !elem_of_cons, !list_elem_of_fmap.
    intros [[= -> ->]|([x1 r1] & [= -> ->] & H1)]
           [[= <-]|([x2 r2] & [= -> ->] & H2)]; simpl in *.
    + done.
    + by apply selections_elem_of in H2.
    + simplify_eq. by apply selections_elem_of in H1.
    + f_equal. by apply IH.
Qed.

Lemma NoDup_selections {A} (l : list A) : NoDup l → NoDup (selections l).
Proof.
  induction 1 as [|y l Hy Hdup IH]; simpl; constructor.
  - intros ([x r] & [= -> _] & Hin%selections_elem_of)%list_elem_of_fmap.
    done.
  - apply NoDup_fmap_2; [|done]. intros [x1 r1] [x2 r2] [= -> ->]. done.
Qed.

Lemma NoDup_selections_rest {A} (l : list A) x rest :
  NoDup l → (x, rest) ∈ selections l → NoDup rest.
Proof.
  intros Hdup (l1 & l2 & -> & ->)%elem_of_selections.
  rewrite <-Permutation_middle in Hdup. by apply NoDup_cons in Hdup as [_ ?].
Qed.

(** The enumeration that [brute_force] goes through has no permutation
    twice. *)
Lemma NoDup_permutations {A} (l : list A) r :
  NoDup l → NoDup (permutations l r).
Proof.
  revert l. induction r as [|r IH]; intros l Hdup; simpl.
  - apply NoDup_singleton.
  - apply NoDup_bind; [| |by apply NoDup_selections].
    + intros [x1 r1] [x2 r2] p H1 H2
        (p1 & -> & _)%list_elem_of_fmap (p2 & [= -> _] & _)%list_elem_of_fmap.
      f_equal. by eapply selections_unique.
    + intros [x rest] Hin. apply NoDup_fmap_2; [apply _|].
      apply IH. by eapply NoDup_selections_rest.
Qed.

(** The sum of the comparisons is the same for every list that holds
    every permutation of [range(n)] once. *)
Lemma sum_comparisons_any_enumeration n perms :
  NoDup perms → (∀ p, p ∈ perms ↔ p ≡ₚ range n) →
  sum_list (comparisons <$> perms)
  = sum_list (comparisons <$> permutations (range n) (Z.to_nat n)).
Proof.
  intros Hdup Hperms.
  assert (perms ≡ₚ permutations (range n) (Z.to_nat n)) as ->; [|done].
  apply NoDup_Permutation; [done|apply NoDup_permutations, NoDup_seqZ|].
  intros p. by rewrite Hperms, elem_of_permutations_range.
Qed.

(** * The claims *)

(** C1: for every board size [n >= 1], [recursive([], n)] returns exactly
    the set of the valid placements of size [n], which is the solution set
    of [brute_force(n)]; for [n = 4] it is [{(1,3,0,2), (2,0,3,1)}].  This
    holds whatever the order in which the runtime iterates over a set. *)
Theorem recursive_returns_brute_force_solutions set_order n :
  1 ≤ n → lists_survivors set_order n →
  ∃ solutions counter,
    brute_force n = Returned (solutions, counter)
    ∧ recursive set_order [] n = Returned solutions
    ∧ (∀ p, p ∈ solutions ↔ is_solution n p)
    ∧ (n = 4 → solutions = {[ [1; 3; 0; 2]; [2; 0; 3; 1] ]}).
Proof.
  intros Hn Horder.
  destruct (brute_force_returns n) as (solutions & Hbf & Hsol); [lia|].
  destruct (recursive_nil set_order n Horder Hn) as (X & HX & HXsol).
  assert (X = solutions) as ->.
  { apply set_eq. intros p. by rewrite HXsol, Hsol. }
  exists solutions, (total_comparisons n).
  split; [done|]. split; [done|]. split; [done|].
  intros ->. rewrite brute_force_4 in Hbf. by injection Hbf as <-.
Qed.

Lemma recursive_returns_brute_force_solutions_witness :
  1 ≤ 4 ∧ lists_survivors ascending 4 ∧
  ∃ solutions counter,
    brute_force 4 = Returned (solutions, counter)
    ∧ recursive ascending [] 4 = Returned solutions
    ∧ (∀ p, p ∈ solutions ↔ is_solution 4 p)
    ∧ (4 = 4 → solutions = {[ [1; 3; 0; 2]; [2; 0; 3; 1] ]}).
Proof.
  split; [lia|]. split; [intros ?; reflexivity|].
  apply (recursive_returns_brute_force_solutions ascending 4);
    [lia|intros ?; reflexivity].
Defined.

(** C2: for every board size [n >= 1], every solution [S] of
    [brute_force(n)] and every index [r] below [n], the row [S[r]] is in
    [get_valid_moves(S[:r], n)]. *)
Theorem oracle_accepts_every_solution_step set_order n :
  1 ≤ n → lists_survivors set_order n →
  ∃ solutions counter,
    brute_force n = Returned (solutions, counter)
    ∧ ∀ S r, S ∈ solutions → 0 ≤ Z.of_nat r < n →
        ∃ m, S !! r = Some m
             ∧ m ∈ get_valid_moves set_order (take r S) n.
Proof.
  intros Hn Horder.
  destruct (brute_force_returns n) as (solutions & Hbf & Hsol); [lia|].
  exists solutions, (total_comparisons n). split; [done|].
  intros S r HS Hr. apply Hsol, is_solution_iff in HS as [Hlen Hstep].
  destruct (lookup_lt_is_Some_2 S r) as [m Hm]; [lia|].
  exists m. split; [done|].
  apply (elem_of_get_valid_moves set_order n Horder). by apply Hstep.
Qed.

Lemma oracle_accepts_every_solution_step_witness :
  1 ≤ 4 ∧ lists_survivors ascending 4 ∧
  ∃ solutions counter,
    brute_force 4 = Returned (solutions, counter)
    ∧ ∀ S r, S ∈ solutions → 0 ≤ Z.of_nat r < 4 →
        ∃ m, S !! r = Some m
             ∧ m ∈ get_valid_moves ascending (take r S) 4.
Proof.
  split; [lia|]. split; [intros ?; reflexivity|].
  apply (oracle_accepts_every_solution_step ascending 4);
    [lia|intros ?; reflexivity].
Defined.

(** C3: for every board size [n >= 1], every placement returned by
    [recursive([], n)] has length [n], rows in [[0, n)] that are all
    distinct, and [|placement[i] - placement[j]| != j - i] for all
    [i < j]. *)
Theorem recursive_placements_are_solutions set_order n :
  1 ≤ n → lists_survivors set_order n →
  ∃ X, recursive set_order [] n = Returned X
       ∧ ∀ placement, placement ∈ X →
           Z.of_nat (length placement) = n
           ∧ (∀ i x, placement !! i = Some x → 0 ≤ x < n)
           ∧ NoDup placement
           ∧ ∀ i j x y, (i < j)%nat →
               placement !! i = Some x → placement !! j = Some y →
               Z.abs (x - y) ≠ Z.of_nat j - Z.of_nat i.
Proof.
  intros Hn Horder.
  destruct (recursive_nil set_order n Horder Hn) as (X & HX & HXsol).
  exists X. split; [done|]. intros placement Hp. by apply HXsol in Hp.
Qed.

Lemma recursive_placements_are_solutions_witness :
  1 ≤ 4 ∧ lists_survivors ascending 4 ∧
  ∃ X, recursive ascending [] 4 = Returned X
       ∧ ∀ placement, placement ∈ X →
           Z.of_nat (length placement) = 4
           ∧ (∀ i x, placement !! i = Some x → 0 ≤ x < 4)
           ∧ NoDup placement
           ∧ ∀ i j x y, (i < j)%nat →
               placement !! i = Some x → placement !! j = Some y →
               Z.abs (x - y) ≠ Z.of_nat j - Z.of_nat i.
Proof.
  split; [lia|]. split; [intros ?; reflexivity|].
  apply (recursive_placements_are_solutions ascending 4);
    [lia|intros ?; reflexivity].
Defined.

(** C4: for every [n >= 1] and every partial placement [P] of length
    [k < n], [get_valid_moves(P, n)] is the set [{0, ..., n-1}] minus the
    union, over the placed queens [(idx, move)], of
    [{move, move + (k - idx), move - (k - idx)}]; and
    [get_valid_moves([], n)] is [{0, ..., n-1}]. *)
Theorem get_valid_moves_meets_spec set_order n P :
  1 ≤ n → Z.of_nat (length P) < n → lists_survivors set_order n →
  NoDup (get_valid_moves set_order P n)
  ∧ list_to_set (get_valid_moves set_order P n) = valid_moves_spec P n
  ∧ list_to_set (get_valid_moves set_order [] n)
    =@{gset Z} list_to_set (seqZ 0 n).
Proof.
  intros Hn Hk Horder. split; [|split].
  - by apply NoDup_get_valid_moves.
  - apply set_eq. intros x.
    by rewrite elem_of_list_to_set, elem_of_valid_moves_spec,
      (elem_of_get_valid_moves set_order n Horder).
  - apply set_eq. intros x.
    rewrite !elem_of_list_to_set, elem_of_seqZ,
      (elem_of_get_valid_moves set_order n Horder).
    unfold free_row. split; [lia|]. intros ?. split; [lia|].
    intros idx move Hidx. by rewrite lookup_nil in Hidx.
Qed.

Lemma get_valid_moves_meets_spec_witness :
  1 ≤ 4 ∧ Z.of_nat (length [0]) < 4 ∧ lists_survivors ascending 4 ∧
  NoDup (get_valid_moves ascending [0] 4)
  ∧ list_to_set (get_valid_moves ascending [0] 4) = valid_moves_spec [0] 4
  ∧ list_to_set (get_valid_moves ascending [] 4)
    =@{gset Z} list_to_set (seqZ 0 4).
Proof.
  split; [lia|]. split; [simpl; lia|]. split; [intros ?; reflexivity|].
  apply (get_valid_moves_meets_spec ascending 4 [0]);
    [lia|simpl; lia|intros ?; reflexivity].
Defined.

(** C5: for every board size [n >= 1], in every call reached from
    [recursive([], n)] or [recursive_fast([], n)], a placement of length
    [n - 1] with a non-empty set of valid moves has exactly one valid move;
    so neither run ends in the [AssertionError] of the last column: both
    return. *)
Theorem last_column_assertion_never_fails set_order n :
  1 ≤ n → lists_survivors set_order n →
  (∀ P, rtc (recursive_call set_order n) [] P
        ∨ rtc (recursive_fast_call set_order n) [] P →
        Z.of_nat (length P) = n - 1 →
        length (get_valid_moves set_order P n) ≠ 0%nat →
        length (get_valid_moves set_order P n) = 1%nat)
  ∧ (∃ X, recursive set_order [] n = Returned X)
  ∧ (∃ r, recursive_fast set_order [] n = Returned r).
Proof.
  intros Hn Horder. split; [|split].
  - intros P Hreach Hlen Hne.
    assert (stepwise n P) as HP.
    { apply (reached_stepwise set_order n Horder).
      destruct Hreach as [?|?]; [done|by apply reached_fast_reached]. }
    pose proof (length_valid_moves_last set_order n Horder P HP Hlen). lia.
  - destruct (recursive_nil set_order n Horder Hn) as (X & HX & _). eauto.
  - destruct (recursive_fast_nil set_order n Horder Hn) as (r & Hr & _). eauto.
Qed.

Lemma last_column_assertion_never_fails_witness :
  1 ≤ 4 ∧ lists_survivors ascending 4 ∧
  (∀ P, rtc (recursive_call ascending 4) [] P
        ∨ rtc (recursive_fast_call ascending 4) [] P →
        Z.of_nat (length P) = 4 - 1 →
        length (get_valid_moves ascending P 4) ≠ 0%nat →
        length (get_valid_moves ascending P 4) = 1%nat)
  ∧ (∃ X, recursive ascending [] 4 = Returned X)
  ∧ (∃ r, recursive_fast ascending [] 4 = Returned r).
Proof.
  split; [lia|]. split; [intros ?; reflexivity|].
  apply (last_column_assertion_never_fails ascending 4);
    [lia|intros ?; reflexivity].
Defined.

(** C6: for every board size [n >= 1], [recursive_fast([], n)] is [None]
    exactly when [recursive([], n)] is the empty set, which is exactly when
    the solution set of [brute_force(n)] is empty; and a result of
    [recursive_fast([], n)] other than [None] is in the set that
    [recursive([], n)] returns. *)
Theorem solvers_are_cross_consistent set_order n :
  1 ≤ n → lists_survivors set_order n →
  ∃ first all solutions counter,
    recursive_fast set_order [] n = Returned first
    ∧ recursive set_order [] n = Returned all
    ∧ brute_force n = Returned (solutions, counter)
    ∧ (first = None ↔ all = ∅)
    ∧ (all = ∅ ↔ solutions = ∅)
    ∧ ∀ sol, first = Some sol → sol ∈ all.
Proof.
  intros Hn Horder.
  destruct (brute_force_returns n) as (solutions & Hbf & Hsol); [lia|].
  destruct (recursive_nil set_order n Horder Hn) as (X & HX & HXsol).
  destruct (recursive_fast_nil set_order n Horder Hn) as (r & Hr & Hrsol).
  assert (X = solutions) as ->.
  { apply set_eq. intros p. by rewrite HXsol, Hsol. }
  exists r, solutions, solutions, (total_comparisons n).
  split; [done|]. split; [done|]. split; [done|]. split; [|split; [done|]].
  - split.
    + intros ->. apply set_eq. intros p. rewrite HXsol. set_solver.
    + intros ->. destruct r as [sol|]; [|done].
      apply HXsol in Hrsol. set_solver.
  - intros sol ->. by apply HXsol.
Qed.

Lemma solvers_are_cross_consistent_witness :
  1 ≤ 4 ∧ lists_survivors ascending 4 ∧
  ∃ first all solutions counter,
    recursive_fast ascending [] 4 = Returned first
    ∧ recursive ascending [] 4 = Returned all
    ∧ brute_force 4 = Returned (solutions, counter)
    ∧ (first = None ↔ all = ∅)
    ∧ (all = ∅ ↔ solutions = ∅)
    ∧ ∀ sol, first = Some sol → sol ∈ all.
Proof.
  split; [lia|]. split; [intros ?; reflexivity|].
  apply (solvers_are_cross_consistent ascending 4);
    [lia|intros ?; reflexivity].
Defined.

(** C7, as stated, fails: the code iterates over a set and does not sort
    it.  With the sets of CPython 3.11 the run on the board of size 17
    reaches, on its very first descent, the placement
    [(0, 2, 4, 1, 3, 8, 10, 12)], whose candidate rows 14, 15 and 16 come
    in the order 16, 14, 15. *)
Lemma cpython_branch_not_ascending :
  rtc (recursive_fast_call cpython_order 17) [] [0; 2; 4; 1; 3; 8; 10; 12]
  ∧ get_valid_moves cpython_order [0; 2; 4; 1; 3; 8; 10; 12] 17
    = [16; 14; 15]
  ∧ ¬ branches_ascending cpython_order 17.
Proof.
  assert (rtc (recursive_fast_call cpython_order 17) []
              [0; 2; 4; 1; 3; 8; 10; 12]) as Hreach.
  { eapply rtc_l;
      [apply (first_candidate_called _ _ [] 0
                [1; 2; 3; 4; 5; 6; 7; 8; 9; 10; 11; 12; 13; 14; 15; 16]);
       [done|by vm_compute]|].
    eapply rtc_l;
      [apply (first_candidate_called _ _ [0] 2
                [3; 4; 5; 6; 7; 8; 9; 10; 11; 12; 13; 14; 15; 16]);
       [done|by vm_compute]|].
    eapply rtc_l;
      [apply (first_candidate_called _ _ [0; 2] 4
                [5; 6; 7; 8; 9; 10; 11; 12; 13; 14; 15; 16]);
       [done|by vm_compute]|].
    eapply rtc_l;
      [apply (first_candidate_called _ _ [0; 2; 4] 1
                [6; 7; 8; 9; 10; 11; 12; 13; 14; 15; 16]);
       [done|by vm_compute]|].
    eapply rtc_l;
      [apply (first_candidate_called _ _ [0; 2; 4; 1] 3
                [7; 8; 9; 10; 11; 12; 13; 14; 15; 16]);
       [done|by vm_compute]|].
    eapply rtc_l;
      [apply (first_candidate_called _ _ [0; 2; 4; 1; 3] 8
                [9; 10; 11; 12; 13; 14; 15; 16]);
       [done|by vm_compute]|].
    eapply rtc_l;
      [apply (first_candidate_called _ _ [0; 2; 4; 1; 3; 8] 10
                [11; 12; 13; 14; 15; 16]);
       [done|by vm_compute]|].
    eapply rtc_l;
      [apply (first_candidate_called _ _ [0; 2; 4; 1; 3; 8; 10] 12
                [13; 14; 15; 16]);
       [done|by vm_compute]|].
    apply rtc_refl. }
  assert (get_valid_moves cpython_order [0; 2; 4; 1; 3; 8; 10; 12] 17
          = [16; 14; 15]) as Horder by (by vm_compute).
  split; [done|]. split; [done|].
  intros Hasc. specialize (Hasc _ Hreach). rewrite Horder in Hasc.
  apply StronglySorted_inv in Hasc as [_ Hall].
  apply Forall_cons in Hall as [? _]. lia.
Qed.

(** C7, amended: [recursive_fast] takes the candidate rows in the order in
    which the runtime iterates over the set of [get_valid_moves].  Where
    that order is ascending at board size [n >= 1] -- with the sets of
    CPython 3.11 it is for every [n <= 16] -- and the board has a
    solution, [recursive_fast([], n)] returns the lexicographically
    smallest one; for [n = 8] this is [(0, 4, 7, 5, 2, 6, 1, 3)]. *)
Theorem recursive_fast_returns_least_solution set_order n :
  1 ≤ n →
  iterates_ascending set_order n ∨ (set_order = cpython_order ∧ n ≤ 16) →
  (∀ P, StronglySorted Z.lt (get_valid_moves set_order P n))
  ∧ ((∃ sol, is_solution n sol) →
     ∃ first, recursive_fast set_order [] n = Returned (Some first)
              ∧ is_solution n first
              ∧ ∀ sol, is_solution n sol → lex_le first sol)
  ∧ (n = 8 →
     recursive_fast set_order [] n = Returned (Some [0; 4; 7; 5; 2; 6; 1; 3])).
Proof.
  intros Hn Horder.
  assert (iterates_ascending set_order n) as Hasc.
  { destruct Horder as [?|[-> ?]]; [done|by apply cpython_iterates_ascending]. }
  split; [|split].
  - intros P. rewrite Hasc. apply StronglySorted_surviving.
  - by apply recursive_fast_least.
  - intros ->. rewrite (recursive_fast_as_ascending set_order 8 Hasc).
    apply recursive_fast_ascending_8.
Qed.

Lemma recursive_fast_returns_least_solution_witness :
  1 ≤ 8 ∧
  (iterates_ascending cpython_order 8 ∨ (cpython_order = cpython_order ∧ 8 ≤ 16)) ∧
  (∀ P, StronglySorted Z.lt (get_valid_moves cpython_order P 8))
  ∧ ((∃ sol, is_solution 8 sol) →
     ∃ first, recursive_fast cpython_order [] 8 = Returned (Some first)
              ∧ is_solution 8 first
              ∧ ∀ sol, is_solution 8 sol → lex_le first sol)
  ∧ (8 = 8 →
     recursive_fast cpython_order [] 8
     = Returned (Some [0; 4; 7; 5; 2; 6; 1; 3])).
Proof.
  split; [lia|]. split; [right; split; [reflexivity|lia]|].
  apply (recursive_fast_returns_least_solution cpython_order 8);
    [lia|right; split; [reflexivity|lia]].
Defined.

(** C8: for every [n >= 0], the counter that [brute_force(n)] returns is
    the number of index pairs [(i, j)], [i < j], looked at over all the
    permutations of [range(n)], each permutation taken once and in whatever
    order they are listed, where the pairs of a permutation are scanned with
    [i] ascending and then [j] ascending, and the scan stops right after
    the first pair with [|permut[i] - permut[j]| == j - i], which is
    counted. *)
Theorem brute_force_counter_counts_examined_pairs n perms :
  0 ≤ n →
  NoDup perms → (∀ p, p ∈ perms ↔ p ≡ₚ range n) →
  snd <$> brute_force n
  = Returned (Z.of_nat (sum_list (comparisons <$> perms))).
Proof.
  intros Hn Hdup Hperms.
  destruct (brute_force_returns n Hn) as (solutions & -> & _). simpl.
  unfold total_comparisons.
  by rewrite (sum_comparisons_any_enumeration n perms).
Qed.

Lemma brute_force_counter_counts_examined_pairs_witness :
  let perms :=
    [[2; 1; 0]; [0; 1; 2]; [1; 0; 2]; [2; 0; 1]; [0; 2; 1]; [1; 2; 0]] in
  0 ≤ 3 ∧ NoDup perms ∧ (∀ p, p ∈ perms ↔ p ≡ₚ range 3) ∧
  snd <$> brute_force 3
  = Returned (Z.of_nat (sum_list (comparisons <$> perms)))
  ∧ comparisons <$> perms = [1; 1; 1; 3; 3; 1]%nat
  ∧ Z.of_nat (sum_list (comparisons <$> perms)) = 10.
Proof.
  intros perms.
  assert (NoDup perms) as Hdup
    by (apply (bool_decide_unpack _); vm_compute; reflexivity).
  assert (∀ p, p ∈ perms ↔ p ≡ₚ range 3) as Hperms.
  { intros p. split.
    - intros Hp. unfold perms in Hp.
      repeat (apply elem_of_cons in Hp as [->|Hp];
              [apply (bool_decide_unpack _); vm_compute; reflexivity|]).
      by apply elem_of_nil in Hp.
    - intros Hp%elem_of_permutations_range. vm_compute in Hp.
      repeat (apply elem_of_cons in Hp as [->|Hp];
              [apply (bool_decide_unpack _); vm_compute; reflexivity|]).
      by apply elem_of_nil in Hp. }
  split; [lia|]. split; [exact Hdup|]. split; [exact Hperms|].
  split; [|split; vm_compute; reflexivity].
  apply (brute_force_counter_counts_examined_pairs 3 perms);
    [lia|exact Hdup|exact Hperms].
Defined.


(** C10: on the board of size [0], [brute_force(0)] returns the solution
    set [{()}] and the counter [0], [recursive([], 0)] returns the empty
    set and [recursive_fast([], 0)] returns [None]: the three solvers do
    not agree there. *)
Theorem solvers_disagree_on_board_0 set_order :
  lists_survivors set_order 0 →
  brute_force 0 = Returned ({[ [] ]}, 0)
  ∧ recursive set_order [] 0 = Returned ∅
  ∧ recursive_fast set_order [] 0 = Returned None
  ∧ ({[ [] ]} : gset (list Z)) ≠ ∅.
Proof.
  intros Horder. split; [by vm_compute|].
  unfold recursive, recursive_fast, depth_bound. simpl.
  rewrite (get_valid_moves_board_0 set_order 0 Horder) by done.
  split; [done|]. split; [done|].
  intros H. assert (([] : list Z) ∈ (∅ : gset (list Z))) as Hin.
  { rewrite <-H. set_solver. }
  set_solver.
Qed.

Lemma solvers_disagree_on_board_0_witness :
  lists_survivors ascending 0 ∧
  brute_force 0 = Returned ({[ [] ]}, 0)
  ∧ recursive ascending [] 0 = Returned ∅
  ∧ recursive_fast ascending [] 0 = Returned None
  ∧ ({[ [] ]} : gset (list Z)) ≠ ∅.
Proof.
  split; [intros ?; reflexivity|].
  apply (solvers_disagree_on_board_0 ascending). intros ?; reflexivity.
Defined.

(** * Further properties of the code *)

(** ** The backtracking solvers on any placement *)

Lemma for_each_invariant {A S} (I : S → Prop) (body : S → A → outcome S)
    l s s' :
  (∀ s x s', x ∈ l → I s → body s x = Returned s' → I s') →
  I s → for_each body s l = Returned s' → I s'.
Proof.
  revert s. induction l as [|x l IH]; intros s Hbody Hs; simpl.
  - by intros [= <-].
  - destruct (body s x) as [s1| |] eqn:Hx; simpl; [|done..].
    apply IH; [|by eapply Hbody; [left|..]].
    intros s0 y s0' Hy. apply Hbody. by right.
Qed.

(** Tuples are only built in the last column, from the placement at
    hand. *)
Lemma recursive_fuel_shape set_order n fuel P X :
  recursive_fuel set_order fuel P n = Returned X →
  ∀ t, t ∈ X → Z.of_nat (length t) = n ∧ P `prefix_of` t.
Proof.
  revert P X. induction fuel as [|fuel IH]; intros P X; [done|]. simpl.
  case_decide as Hempty; [intros [= <-]; set_solver|].
  case_decide as Hlen.
  - case_decide as Hone; [|done]. intros [= <-] t ->%elem_of_singleton.
    split; [rewrite length_app; lia|by apply prefix_app_r].
  - apply (for_each_invariant
             (λ X, ∀ t, t ∈ X → Z.of_nat (length t) = n ∧ P `prefix_of` t));
      [|set_solver].
    intros output m output' _ Hout.
    destruct (recursive_fuel set_order fuel (P ++ [m]) n) as [sols| |] eqn:Hm;
      simpl; [|done..].
    intros [= <-] t [[_ Ht]%elem_of_filter|Ht]%elem_of_union; [|by apply Hout].
    destruct (IH _ _ Hm t Ht) as [? ?]. split; [done|].
    by eapply prefix_app_l.
Qed.

Lemma recursive_fast_fuel_shape set_order n fuel P t :
  recursive_fast_fuel set_order fuel P n = Returned (Some t) →
  Z.of_nat (length t) = n ∧ P `prefix_of` t.
Proof.
  revert P. induction fuel as [|fuel IH]; intros P; [done|]. simpl.
  case_decide as Hempty; [done|]. case_decide as Hlen.
  - case_decide as Hone; [|done]. intros [= <-].
    split; [rewrite length_app; lia|by apply prefix_app_r].
  - intros (before & m & after & _ & _ & Hm)%first_found_inv.
    destruct (IH _ Hm) as [? ?]. split; [done|]. by eapply prefix_app_l.
Qed.

(** X5: whatever the placement it is called on and whatever the order of
    the sets, every tuple that [recursive] returns, and the tuple that
    [recursive_fast] returns, is [board_size] long and starts with
    [prev_moves]; so the test [len(solution) > 0] of [recursive] never
    drops a tuple.  Each solver is taken by itself: one may return where
    the other raises. *)
Theorem returned_tuples_extend_prev_moves set_order n P :
  (∀ X, recursive set_order P n = Returned X →
        (∀ t, t ∈ X → Z.of_nat (length t) = n ∧ P `prefix_of` t)
        ∧ (1 ≤ n → filter (λ solution, (0 < length solution)%nat) X = X))
  ∧ ∀ t, recursive_fast set_order P n = Returned (Some t) →
         Z.of_nat (length t) = n ∧ P `prefix_of` t.
Proof.
  split; [|intros t; apply recursive_fast_fuel_shape].
  intros X HX. pose proof (recursive_fuel_shape _ _ _ _ _ HX) as Hshape.
  split; [done|].
  intros Hn. apply set_eq. intros t. rewrite elem_of_filter.
  split; [tauto|]. intros Ht. split; [|done].
  destruct (Hshape t Ht). lia.
Qed.

Lemma returned_tuples_extend_prev_moves_witness :
  (recursive ascending [1] 4 = Returned {[ [1; 3; 0; 2] ]}
   ∧ (∀ t, t ∈ ({[ [1; 3; 0; 2] ]} : gset (list Z)) →
           Z.of_nat (length t) = 4 ∧ [1] `prefix_of` t)
   ∧ (1 ≤ 4 →
      filter (λ solution, (0 < length solution)%nat)
             ({[ [1; 3; 0; 2] ]} : gset (list Z)) = {[ [1; 3; 0; 2] ]}))
  ∧ recursive ascending [9; 20] 5 = Raised AssertionError
  ∧ recursive_fast ascending [9; 20] 5 = Returned (Some [9; 20; 0; 2; 4])
  ∧ Z.of_nat (length [9; 20; 0; 2; 4]) = 5
  ∧ [9; 20] `prefix_of` [9; 20; 0; 2; 4].
Proof.
  split; [split; [vm_compute; reflexivity|]|].
  - apply (returned_tuples_extend_prev_moves ascending 4 [1]).
    vm_compute; reflexivity.
  - split; [vm_compute; reflexivity|]. split; [vm_compute; reflexivity|].
    apply (returned_tuples_extend_prev_moves ascending 5 [9; 20]).
    vm_compute; reflexivity.
Defined.

Section AnyPlacement.

Variable set_order : Z → list Z → list Z.
Variable n : Z.
Hypothesis order_ok : lists_survivors set_order n.

Lemma recursive_partial P :
  stepwise n P → Z.of_nat (length P) < n →
  ∃ X, recursive set_order P n = Returned X
       ∧ ∀ S, S ∈ X ↔ P `prefix_of` S ∧ is_solution n S.
Proof.
  intros HP Hlt.
  destruct (recursive_fuel_spec set_order n order_ok (depth_bound n) P)
    as (X & HX & Hspec); [done..|unfold depth_bound; lia|].
  exists X. split; [done|]. intros S. rewrite Hspec. unfold completes.
  rewrite is_solution_iff. tauto.
Qed.

Lemma recursive_fast_partial P :
  stepwise n P → Z.of_nat (length P) < n →
  ∃ r, recursive_fast set_order P n = Returned r
       ∧ match r with
         | Some sol => P `prefix_of` sol ∧ is_solution n sol
         | None => ∀ sol, ¬ (P `prefix_of` sol ∧ is_solution n sol)
         end.
Proof.
  intros HP Hlt.
  destruct (recursive_fast_fuel_spec set_order n order_ok (depth_bound n) P)
    as (r & Hr & Hspec); [done..|unfold depth_bound; lia|].
  exists r. split; [done|]. unfold completes in Hspec.
  destruct r as [sol|].
  - rewrite is_solution_iff. tauto.
  - intros sol. rewrite is_solution_iff. specialize (Hspec sol). tauto.
Qed.

(** On a placement that is already [n] long or longer, no call reaches
    the last-column case any more: every branch dies out. *)
Lemma recursive_fuel_full fuel P :
  n ≤ Z.of_nat (length P) → (size (unused n P) < fuel)%nat →
  recursive_fuel set_order fuel P n = Returned ∅.
Proof.
  revert P. induction fuel as [|fuel IH]; intros P Hlen Hfuel; [lia|]. simpl.
  case_decide; [done|]. rewrite decide_False by lia.
  apply for_each_unchanged. intros m Hm.
  apply (elem_of_get_valid_moves set_order n order_ok) in Hm.
  apply (unused_snoc set_order n order_ok) in Hm. rewrite IH.
  - simpl. f_equal; set_solver.
  - rewrite length_app. simpl. lia.
  - lia.
Qed.

Lemma recursive_fast_fuel_full fuel P :
  n ≤ Z.of_nat (length P) → (size (unused n P) < fuel)%nat →
  recursive_fast_fuel set_order fuel P n = Returned None.
Proof.
  revert P. induction fuel as [|fuel IH]; intros P Hlen Hfuel; [lia|]. simpl.
  case_decide; [done|]. rewrite decide_False by lia.
  assert (∀ l, (∀ m, m ∈ l → m ∈ get_valid_moves set_order P n) →
            first_found
              (λ move, recursive_fast_fuel set_order fuel (P ++ [move]) n) l
            = Returned None) as Hloop.
  { induction l as [|m l IHl]; intros Hl; simpl; [done|].
    rewrite IH.
    - simpl. apply IHl. intros m' ?. apply Hl. by right.
    - rewrite length_app. simpl. lia.
    - assert (m ∈ get_valid_moves set_order P n) as Hm by (apply Hl; left).
      apply (elem_of_get_valid_moves set_order n order_ok) in Hm.
      apply (unused_snoc set_order n order_ok) in Hm. lia. }
  by apply Hloop.
Qed.

End AnyPlacement.

(** X1: called on a placement that was built from free rows and is shorter
    than the board, [recursive] returns exactly the solutions that start
    with it, whatever the order of the sets. *)
Theorem recursive_from_partial_placement set_order n P :
  lists_survivors set_order n → stepwise n P → Z.of_nat (length P) < n →
  ∃ X, recursive set_order P n = Returned X
       ∧ ∀ S, S ∈ X ↔ P `prefix_of` S ∧ is_solution n S.
Proof. intros. by apply recursive_partial. Qed.

Lemma recursive_from_partial_placement_witness :
  lists_survivors ascending 4 ∧ stepwise 4 [1] ∧ Z.of_nat (length [1]) < 4 ∧
  ∃ X, recursive ascending [1] 4 = Returned X
       ∧ ∀ S, S ∈ X ↔ [1] `prefix_of` S ∧ is_solution 4 S.
Proof.
  assert (stepwise 4 [1]) as Hstep.
  { apply (stepwise_snoc 4 [] 1); [apply stepwise_nil|].
    split; [lia|]. intros idx move H. by rewrite lookup_nil in H. }
  split; [intros ?; reflexivity|]. split; [exact Hstep|].
  split; [simpl; lia|].
  apply (recursive_from_partial_placement ascending 4 [1]);
    [intros ?; reflexivity|exact Hstep|simpl; lia].
Defined.

(** X2: on such a placement [recursive_fast] returns [None] exactly when
    [recursive] returns the empty set, and otherwise a solution that starts
    with the placement and is in the set of [recursive]. *)
Theorem recursive_fast_from_partial_placement set_order n P :
  lists_survivors set_order n → stepwise n P → Z.of_nat (length P) < n →
  ∃ r X,
    recursive_fast set_order P n = Returned r
    ∧ recursive set_order P n = Returned X
    ∧ (r = None ↔ X = ∅)
    ∧ ∀ sol, r = Some sol → sol ∈ X ∧ P `prefix_of` sol ∧ is_solution n sol.
Proof.
  intros Horder HP Hlt.
  destruct (recursive_partial set_order n Horder P HP Hlt) as (X & HX & HXs).
  destruct (recursive_fast_partial set_order n Horder P HP Hlt)
    as (r & Hr & Hrs).
  exists r, X. split; [done|]. split; [done|]. split.
  - split.
    + intros ->. apply set_eq. intros S. rewrite HXs. set_solver.
    + intros ->. destruct r as [sol|]; [|done]. apply HXs in Hrs. set_solver.
  - intros sol ->. split; [by apply HXs|done].
Qed.

Lemma recursive_fast_from_partial_placement_witness :
  lists_survivors ascending 4 ∧ stepwise 4 [1] ∧ Z.of_nat (length [1]) < 4 ∧
  ∃ r X,
    recursive_fast ascending [1] 4 = Returned r
    ∧ recursive ascending [1] 4 = Returned X
    ∧ (r = None ↔ X = ∅)
    ∧ ∀ sol, r = Some sol →
        sol ∈ X ∧ [1] `prefix_of` sol ∧ is_solution 4 sol.
Proof.
  assert (stepwise 4 [1]) as Hstep.
  { apply (stepwise_snoc 4 [] 1); [apply stepwise_nil|].
    split; [lia|]. intros idx move H. by rewrite lookup_nil in H. }
  split; [intros ?; reflexivity|]. split; [exact Hstep|].
  split; [simpl; lia|].
  apply (recursive_fast_from_partial_placement ascending 4 [1]);
    [intros ?; reflexivity|exact Hstep|simpl; lia].
Defined.

(** X3: when the sets are iterated smallest row first, the solution that
    [recursive_fast] returns on such a placement is the lexicographically
    smallest of the solutions that start with it. *)
Theorem recursive_fast_least_from_partial_placement set_order n P :
  iterates_ascending set_order n → stepwise n P → Z.of_nat (length P) < n →
  (∃ S, P `prefix_of` S ∧ is_solution n S) →
  ∃ first,
    recursive_fast set_order P n = Returned (Some first)
    ∧ P `prefix_of` first ∧ is_solution n first
    ∧ ∀ S, P `prefix_of` S → is_solution n S → lex_le first S.
Proof.
  intros Hasc HP Hlt (S & HS).
  pose proof (iterates_ascending_lists_survivors _ _ Hasc) as Horder.
  destruct (recursive_fast_partial set_order n Horder P HP Hlt)
    as (r & Hr & Hrs).
  destruct r as [first|]; [|by destruct (Hrs S)].
  destruct Hrs as [? ?]. exists first. repeat (split; [done|]).
  intros S' Hpre HS'.
  eapply (recursive_fast_fuel_least set_order n Hasc (depth_bound n) P);
    [done|done|unfold depth_bound; lia|exact Hr|].
  split; [done|]. by apply is_solution_iff.
Qed.

Lemma recursive_fast_least_from_partial_placement_witness :
  iterates_ascending ascending 4 ∧ stepwise 4 [1] ∧
  Z.of_nat (length [1]) < 4 ∧
  (∃ S, [1] `prefix_of` S ∧ is_solution 4 S) ∧
  ∃ first,
    recursive_fast ascending [1] 4 = Returned (Some first)
    ∧ [1] `prefix_of` first ∧ is_solution 4 first
    ∧ ∀ S, [1] `prefix_of` S → is_solution 4 S → lex_le first S.
Proof.
  assert (stepwise 4 [1]) as Hstep.
  { apply (stepwise_snoc 4 [] 1); [apply stepwise_nil|].
    split; [lia|]. intros idx move H. by rewrite lookup_nil in H. }
  assert (∃ S, [1] `prefix_of` S ∧ is_solution 4 S) as Hsol.
  { exists [1; 3; 0; 2]. split; [by exists [3; 0; 2]|].
    destruct (brute_force_returns 4) as (solutions & Hbf & Hsol); [done|].
    rewrite brute_force_4 in Hbf. injection Hbf as <-.
    apply Hsol. set_solver. }
  split; [intros ?; reflexivity|]. split; [exact Hstep|].
  split; [simpl; lia|]. split; [exact Hsol|].
  apply (recursive_fast_least_from_partial_placement ascending 4 [1]);
    [intros ?; reflexivity|exact Hstep|simpl; lia|exact Hsol].
Defined.

(** X4: both solvers terminate on every placement and board size: a nested
    call is made on a placement with one more row of the board in use, so
    the calls nest at most one deeper than the number of rows that
    [prev_moves] leaves unused, and the outcome is the same with any fuel
    above that. *)
Theorem solvers_terminate set_order n P :
  lists_survivors set_order n →
  recursive set_order P n ≠ OutOfFuel
  ∧ recursive_fast set_order P n ≠ OutOfFuel
  ∧ ∀ fuel, (size (unused n P) < fuel)%nat →
      recursive_fuel set_order fuel P n = recursive set_order P n
      ∧ recursive_fast_fuel set_order fuel P n = recursive_fast set_order P n.
Proof.
  intros Horder. split; [by apply recursive_in_time|].
  split; [by apply recursive_fast_in_time|].
  intros fuel Hfuel.
  split; [by apply recursive_fuel_enough|by apply recursive_fast_fuel_enough].
Qed.

Lemma solvers_terminate_witness :
  lists_survivors ascending 3 ∧
  recursive ascending [7; 7; 0; 5] 3 ≠ OutOfFuel
  ∧ recursive_fast ascending [7; 7; 0; 5] 3 ≠ OutOfFuel
  ∧ ∀ fuel, (size (unused 3 [7; 7; 0; 5])%Z < fuel)%nat →
      recursive_fuel ascending fuel [7; 7; 0; 5] 3
      = recursive ascending [7; 7; 0; 5] 3
      ∧ recursive_fast_fuel ascending fuel [7; 7; 0; 5] 3
        = recursive_fast ascending [7; 7; 0; 5] 3.
Proof.
  split; [intros ?; reflexivity|].
  apply (solvers_terminate ascending 3 [7; 7; 0; 5]). intros ?; reflexivity.
Defined.

(** X6: on a placement that is [board_size] long or longer, [recursive]
    returns the empty set and [recursive_fast] returns [None]; a complete
    solution passed as [prev_moves] is not returned. *)
Theorem solvers_return_nothing_on_full_placement set_order n P :
  lists_survivors set_order n → n ≤ Z.of_nat (length P) →
  recursive set_order P n = Returned ∅
  ∧ recursive_fast set_order P n = Returned None.
Proof.
  intros Horder Hlen.
  pose proof (size_unused n P).
  split.
  - apply recursive_fuel_full; [done..|unfold depth_bound; lia].
  - apply recursive_fast_fuel_full; [done..|unfold depth_bound; lia].
Qed.

Lemma solvers_return_nothing_on_full_placement_witness :
  lists_survivors ascending 4 ∧ 4 ≤ Z.of_nat (length [1; 3; 0; 2]) ∧
  recursive ascending [1; 3; 0; 2] 4 = Returned ∅
  ∧ recursive_fast ascending [1; 3; 0; 2] 4 = Returned None.
Proof.
  split; [intros ?; reflexivity|]. split; [simpl; lia|].
  apply (solvers_return_nothing_on_full_placement ascending 4 [1; 3; 0; 2]);
    [intros ?; reflexivity|simpl; lia].
Defined.

(** X7: the assertion of the last column does fail on placements that the
    search itself never builds: when [prev_moves] is [board_size - 1] long
    and leaves two rows free, both solvers raise [AssertionError]. *)
Theorem last_column_assertion_fails set_order n P m1 m2 :
  lists_survivors set_order n → Z.of_nat (length P) = n - 1 →
  free_row P n m1 → free_row P n m2 → m1 ≠ m2 →
  recursive set_order P n = Raised AssertionError
  ∧ recursive_fast set_order P n = Raised AssertionError.
Proof.
  intros Horder Hlen H1 H2 Hne.
  apply (elem_of_get_valid_moves set_order n Horder) in H1, H2.
  pose proof (NoDup_get_valid_moves set_order n Horder P) as Hdup.
  assert (2 ≤ length (get_valid_moves set_order P n))%nat as Htwo.
  { destruct (get_valid_moves set_order P n) as [|a [|b l]]; simpl; [| |lia].
    - by apply elem_of_nil in H1.
    - apply list_elem_of_singleton in H1, H2. congruence. }
  unfold recursive, recursive_fast, depth_bound. simpl.
  split; repeat case_decide; done || lia.
Qed.

Lemma last_column_assertion_fails_witness :
  lists_survivors ascending 3 ∧ Z.of_nat (length [7; 9]) = 3 - 1 ∧
  free_row [7; 9] 3 0 ∧ free_row [7; 9] 3 1 ∧ 0 ≠ 1 ∧
  recursive ascending [7; 9] 3 = Raised AssertionError
  ∧ recursive_fast ascending [7; 9] 3 = Raised AssertionError.
Proof.
  assert (∀ m, 0 ≤ m < 3 → free_row [7; 9] 3 m) as Hfree.
  { intros m Hm. split; [done|].
    intros [|[|idx]] move [= <-]; simpl; lia. }
  split; [intros ?; reflexivity|]. split; [simpl; lia|].
  split; [apply Hfree; lia|]. split; [apply Hfree; lia|]. split; [lia|].
  apply (last_column_assertion_fails ascending 3 [7; 9] 0 1);
    [intros ?; reflexivity|simpl; lia|apply Hfree; lia|apply Hfree; lia|lia].
Defined.

(** ** The oracle: how many rows it keeps, and its symmetry *)

Lemma size_union_le (X Y : gset Z) : (size (X ∪ Y) ≤ size X + size Y)%nat.
Proof.
  rewrite size_union_alt.
  assert (size (Y ∖ X) ≤ size Y)%nat by (apply subseteq_size; set_solver).
  lia.
Qed.

Lemma size_foldl_mark_invalid len items acc :
  (size (foldl (mark_invalid len) acc items) ≤ size acc + 3 * length items)%nat.
Proof.
  revert acc. induction items as [|[idx move] items IH]; intros acc; simpl.
  - lia.
  - etrans; [apply IH|]. unfold mark_invalid.
    pose proof (size_union_le {[move - (Z.of_nat len - Z.of_nat idx)]}
                  ({[move + (Z.of_nat len - Z.of_nat idx)]}
                   ∪ ({[move]} ∪ acc))) as H1.
    pose proof (size_union_le {[move + (Z.of_nat len - Z.of_nat idx)]}
                  ({[move]} ∪ acc)) as H2.
    pose proof (size_union_le {[move]} acc) as H3.
    rewrite !size_singleton in *. lia.
Qed.

Lemma size_invalid_moves_of P :
  (size (invalid_moves_of P) ≤ 3 * length P)%nat.
Proof.
  unfold invalid_moves_of. etrans; [apply size_foldl_mark_invalid|].
  unfold enumerate. rewrite length_imap, size_empty. lia.
Qed.

Lemma length_surviving n invalid_moves :
  (Z.to_nat n - size invalid_moves
   ≤ length (surviving (range n) invalid_moves))%nat.
Proof.
  assert (list_to_set (surviving (range n) invalid_moves)
          = list_to_set (range n) ∖ invalid_moves :> gset Z) as Hset.
  { apply set_eq. intros x. unfold surviving.
    rewrite elem_of_difference, !elem_of_list_to_set, list_elem_of_filter.
    tauto. }
  rewrite <-(size_list_to_set (C := gset Z))
    by apply NoDup_surviving, NoDup_seqZ.
  rewrite Hset, size_difference_alt.
  rewrite size_list_to_set by apply NoDup_seqZ.
  unfold range. rewrite length_seqZ.
  assert (size (list_to_set (seqZ 0 n) ∩ invalid_moves)
          ≤ size invalid_moves)%nat
    by apply subseteq_size, intersection_subseteq_r.
  lia.
Qed.

(** X8: [get_valid_moves] never proposes a row twice, a row off the board
    or a row that [prev_moves] already uses, and a queen takes at most three
    rows away: of the [board_size] rows at least
    [board_size - 3 * len(prev_moves)] are returned. *)
Theorem get_valid_moves_rows set_order n P :
  lists_survivors set_order n →
  NoDup (get_valid_moves set_order P n)
  ∧ (∀ m, m ∈ get_valid_moves set_order P n → 0 ≤ m < n ∧ m ∉ P)
  ∧ n - 3 * Z.of_nat (length P)
    ≤ Z.of_nat (length (get_valid_moves set_order P n)) ≤ Z.max n 0.
Proof.
  intros Horder. split; [by apply NoDup_get_valid_moves|]. split.
  - intros m Hm. apply (elem_of_get_valid_moves set_order n Horder) in Hm.
    destruct Hm as [? Hfree]. split; [done|].
    intros [idx Hidx]%list_elem_of_lookup.
    by destruct (Hfree _ _ Hidx) as [? _].
  - rewrite (Horder P). split.
    + pose proof (length_surviving n (invalid_moves_of P)).
      pose proof (size_invalid_moves_of P). lia.
    + unfold surviving, range.
      pose proof (length_filter (λ m, m ∉ invalid_moves_of P) (seqZ 0 n))
        as Hle.
      rewrite length_seqZ in Hle. lia.
Qed.

Lemma get_valid_moves_rows_witness :
  lists_survivors ascending 8 ∧
  NoDup (get_valid_moves ascending [0; 4] 8)
  ∧ (∀ m, m ∈ get_valid_moves ascending [0; 4] 8 →
          0 ≤ m < 8 ∧ m ∉ [0; 4])
  ∧ 8 - 3 * Z.of_nat (length [0; 4])
    ≤ Z.of_nat (length (get_valid_moves ascending [0; 4] 8)) ≤ Z.max 8 0.
Proof.
  split; [intros ?; reflexivity|].
  apply (get_valid_moves_rows ascending 8 [0; 4]). intros ?; reflexivity.
Defined.

Lemma mirror_mirror n S : mirror n (mirror n S) = S.
Proof.
  unfold mirror. rewrite <-list_fmap_compose.
  rewrite <-(list_fmap_id S) at 2. apply list_fmap_ext.
  intros _ m _. simpl. lia.
Qed.

Lemma free_row_mirror P n m :
  free_row P n m → free_row (mirror n P) n (n - 1 - m).
Proof.
  intros [Hm Hfree]. split; [lia|]. intros idx move' Hidx. simpl.
  unfold mirror in *. rewrite length_fmap.
  apply list_lookup_fmap_Some in Hidx as (move & -> & Hidx).
  specialize (Hfree _ _ Hidx). simpl in Hfree. lia.
Qed.

(** X9: the oracle treats the board and its mirror image alike: row [m] is
    a valid move after [prev_moves] exactly when row [board_size - 1 - m]
    is a valid move after the mirrored placement. *)
Theorem get_valid_moves_mirror set_order n P m :
  lists_survivors set_order n →
  m ∈ get_valid_moves set_order P n
  ↔ n - 1 - m ∈ get_valid_moves set_order (mirror n P) n.
Proof.
  intros Horder. rewrite !(elem_of_get_valid_moves set_order n Horder).
  split; [apply free_row_mirror|]. intros H%free_row_mirror.
  rewrite mirror_mirror in H. by replace (n - 1 - (n - 1 - m)) with m in H by lia.
Qed.

Lemma get_valid_moves_mirror_witness :
  lists_survivors ascending 8 ∧
  (2 ∈ get_valid_moves ascending [0; 4] 8
   ↔ 8 - 1 - 2 ∈ get_valid_moves ascending (mirror 8 [0; 4]) 8).
Proof.
  split; [intros ?; reflexivity|].
  apply (get_valid_moves_mirror ascending 8 [0; 4] 2). intros ?; reflexivity.
Defined.

Lemma is_solution_mirror n S : is_solution n S → is_solution n (mirror n S).
Proof.
  intros (Hlen & Hboard & Hdup & Hdiag). unfold mirror.
  split; [by rewrite length_fmap|]. split; [|split].
  - intros i x' (x & -> & Hx)%list_lookup_fmap_Some.
    specialize (Hboard _ _ Hx). lia.
  - apply NoDup_fmap_2; [|done]. intros x y ?. lia.
  - intros i j x' y' Hij (x & -> & Hx)%list_lookup_fmap_Some
      (y & -> & Hy)%list_lookup_fmap_Some.
    specialize (Hdiag _ _ _ _ Hij Hx Hy). lia.
Qed.

Lemma is_solution_reverse n pl : is_solution n pl → is_solution n (reverse pl).
Proof.
  intros (Hlen & Hboard & Hdup & Hdiag).
  split; [by rewrite length_reverse|]. split; [|split].
  - intros i x [Hx _]%reverse_lookup_Some. by eapply Hboard.
  - by rewrite reverse_Permutation.
  - intros i j x y Hij [Hx ?]%reverse_lookup_Some [Hy ?]%reverse_lookup_Some.
    assert (length pl - S j < length pl - S i)%nat as Hji by lia.
    specialize (Hdiag _ _ _ _ Hji Hy Hx). lia.
Qed.

(** X10: the solution set that [recursive([], n)] and [brute_force(n)]
    return is closed under both mirrors of the board: with a placement it
    holds the one with every row [m] replaced by [n - 1 - m], and the one
    with the columns in reverse order. *)
Theorem solution_set_is_symmetric set_order n :
  1 ≤ n → lists_survivors set_order n →
  ∃ X counter,
    recursive set_order [] n = Returned X
    ∧ brute_force n = Returned (X, counter)
    ∧ ∀ S, (S ∈ X ↔ mirror n S ∈ X) ∧ (S ∈ X ↔ reverse S ∈ X).
Proof.
  intros Hn Horder.
  destruct (brute_force_returns n) as (solutions & Hbf & Hsol); [lia|].
  destruct (recursive_nil set_order n Horder Hn) as (X & HX & HXsol).
  assert (X = solutions) as ->.
  { apply set_eq. intros p. by rewrite HXsol, Hsol. }
  exists solutions, (total_comparisons n). split; [done|]. split; [done|].
  intros S. rewrite !Hsol. split; split.
  - apply is_solution_mirror.
  - intros H%is_solution_mirror. by rewrite mirror_mirror in H.
  - apply is_solution_reverse.
  - intros H%is_solution_reverse. by rewrite reverse_involutive in H.
Qed.

Lemma solution_set_is_symmetric_witness :
  1 ≤ 4 ∧ lists_survivors ascending 4 ∧
  ∃ X counter,
    recursive ascending [] 4 = Returned X
    ∧ brute_force 4 = Returned (X, counter)
    ∧ ∀ S, (S ∈ X ↔ mirror 4 S ∈ X) ∧ (S ∈ X ↔ reverse S ∈ X).
Proof.
  split; [lia|]. split; [intros ?; reflexivity|].
  apply (solution_set_is_symmetric ascending 4);
    [lia|intros ?; reflexivity].
Defined.

(** ** The cost of the permutation solver *)

Lemma length_selections {A} (l : list A) :
  length (selections l) = length l.
Proof.
  induction l as [|x l IH]; simpl; [done|]. by rewrite length_fmap, IH.
Qed.

Lemma length_bind_const {A B} (f : A → list B) l c :
  (∀ x, x ∈ l → length (f x) = c) → length (l ≫= f) = (length l * c)%nat.
Proof.
  induction l as [|x l IH]; intros Hf; [done|].
  rewrite bind_cons, length_app, Hf, IH; [simpl; lia| |left].
  intros y Hy. apply Hf. by right.
Qed.

Lemma length_permutations {A} (l : list A) :
  length (permutations l (length l)) = fact (length l).
Proof.
  remember (length l) as r eqn:Hr. revert l Hr.
  induction r as [|r IH]; intros l Hr; [done|]. simpl.
  rewrite (length_bind_const _ _ (fact r)).
  - rewrite length_selections, <-Hr. simpl. lia.
  - intros [x rest] (l1 & l2 & -> & ->)%elem_of_selections.
    rewrite length_fmap. apply IH.
    rewrite length_app in *. simpl in Hr. lia.
Qed.

Lemma length_examined {A} (stop : A → bool) l :
  (length (examined stop l) ≤ length l)%nat
  ∧ (l ≠ [] → 1 ≤ length (examined stop l))%nat.
Proof.
  induction l as [|x l [IH _]]; simpl; [done|].
  split; [|lia]. destruct (stop x); simpl; lia.
Qed.

Lemma length_index_pairs_loop len k :
  (k ≤ len)%nat →
  2 * Z.of_nat (length (i ← seq 0 k; pair i <$> range_from (i + 1) len))
  = Z.of_nat k * (2 * Z.of_nat len - Z.of_nat k - 1).
Proof.
  induction k as [|k IH]; intros Hk; [simpl; lia|].
  rewrite seq_S, bind_app, length_app. simpl.
  rewrite (right_id_L [] (++)), length_fmap. unfold range_from at 2.
  rewrite length_seq. specialize (IH ltac:(lia)). nia.
Qed.

Lemma length_index_pairs len :
  2 * Z.of_nat (length (index_pairs len))
  = Z.of_nat len * (Z.of_nat len - 1).
Proof.
  rewrite index_pairs_loops. destruct len as [|len]; [done|].
  rewrite length_index_pairs_loop by lia. nia.
Qed.

Lemma comparisons_bounds permut :
  (2 ≤ length permut)%nat →
  1 ≤ Z.of_nat (comparisons permut)
  ∧ 2 * Z.of_nat (comparisons permut)
    ≤ Z.of_nat (length permut) * (Z.of_nat (length permut) - 1).
Proof.
  intros Hlen. unfold comparisons.
  pose proof (length_index_pairs (length permut)) as Hpairs.
  destruct (length_examined (conflict permut) (index_pairs (length permut)))
    as [Hle Hge].
  split; [|lia].
  assert (index_pairs (length permut) ≠ []) as Hne.
  { intros Hnil. rewrite Hnil in Hpairs. simpl in Hpairs. nia. }
  specialize (Hge Hne). lia.
Qed.

Lemma sum_list_bounds {A} (f : A → nat) (lo hi2 : Z) l :
  (∀ x, x ∈ l → lo ≤ Z.of_nat (f x) ∧ 2 * Z.of_nat (f x) ≤ hi2) →
  lo * Z.of_nat (length l) ≤ Z.of_nat (sum_list (f <$> l))
  ∧ 2 * Z.of_nat (sum_list (f <$> l)) ≤ hi2 * Z.of_nat (length l).
Proof.
  induction l as [|x l IH]; intros Hf; [simpl; lia|].
  destruct (Hf x) as [? ?]; [left|].
  destruct IH as [? ?]; [intros y Hy; apply Hf; by right|].
  rewrite fmap_cons. simpl sum_list. simpl length. lia.
Qed.

(** X11: for [n >= 2] every one of the [n!] permutations costs
    [brute_force(n)] at least one comparison and at most [n (n - 1) / 2]:
    the counter it returns lies between [n!] and [n! * n * (n - 1) / 2];
    for [n] 0 or 1 there is no pair to compare and the counter is 0. *)
Theorem brute_force_counter_bounds n :
  0 ≤ n →
  ∃ solutions counter,
    brute_force n = Returned (solutions, counter)
    ∧ (n ≤ 1 → counter = 0)
    ∧ (2 ≤ n →
       Z.of_nat (fact (Z.to_nat n)) ≤ counter
       ∧ 2 * counter ≤ Z.of_nat (fact (Z.to_nat n)) * (n * (n - 1))).
Proof.
  intros Hn. destruct (brute_force_returns n Hn) as (solutions & Hbf & _).
  exists solutions, (total_comparisons n). split; [done|].
  unfold total_comparisons.
  assert (length (permutations (range n) (Z.to_nat n)) = fact (Z.to_nat n))
    as Hperms.
  { pose proof (length_permutations (range n)) as H.
    unfold range in H at 2 3. by rewrite length_seqZ in H. }
  assert (∀ p, p ∈ permutations (range n) (Z.to_nat n)
               → length p = Z.to_nat n) as Hlen.
  { intros p Hp. by apply elem_of_permutations in Hp as [? _]. }
  split.
  - intros Hone.
    destruct (sum_list_bounds comparisons 0 0
                (permutations (range n) (Z.to_nat n))) as [? ?]; [|lia].
    intros p Hp. apply Hlen in Hp. unfold comparisons.
    pose proof (length_index_pairs (length p)) as Hpairs.
    destruct (length_examined (conflict p) (index_pairs (length p)))
      as [Hle _].
    rewrite Hp in *. nia.
  - intros Htwo.
    destruct (sum_list_bounds comparisons 1 (n * (n - 1))
                (permutations (range n) (Z.to_nat n))) as [? ?].
    + intros p Hp. apply Hlen in Hp.
      destruct (comparisons_bounds p) as [? ?]; [lia|].
      split; [done|]. rewrite Hp in *. lia.
    + rewrite Hperms in *. lia.
Qed.

Lemma brute_force_counter_bounds_witness :
  0 ≤ 4 ∧
  ∃ solutions counter,
    brute_force 4 = Returned (solutions, counter)
    ∧ (4 ≤ 1 → counter = 0)
    ∧ (2 ≤ 4 →
       Z.of_nat (fact (Z.to_nat 4)) ≤ counter
       ∧ 2 * counter ≤ Z.of_nat (fact (Z.to_nat 4)) * (4 * (4 - 1))).
Proof.
  split; [lia|]. apply (brute_force_counter_bounds 4). lia.
Defined.

(** ** The self-test over any oracle *)

Lemma test_oracle_loop_outcome (oracle : list Z → Z → list Z) (n : Z)
    (solutions : list (list Z)) :
  let result :=
    for_each
      (λ failed solution,
         for_each
           (λ failed '(row, move),
              if decide (move ∈ oracle (take row solution) n)
              then Returned failed else add_two failed solution move)
           failed (enumerate solution))
      (∅ : gset (list Z * Z)) solutions in
  result = Returned ∅ ∨ result = Raised TypeError.
Proof.
  simpl. induction solutions as [|S l IH]; simpl; [by left|].
  assert (∀ items,
            for_each
              (λ failed '(row, move),
                 if decide (move ∈ oracle (take row S) n)
                 then Returned failed else add_two failed S move)
              (∅ : gset (list Z * Z)) items = Returned ∅
            ∨ for_each
                (λ failed '(row, move),
                   if decide (move ∈ oracle (take row S) n)
                   then Returned failed else add_two failed S move)
                (∅ : gset (list Z * Z)) items = Raised TypeError)
    as Hinner.
  { induction items as [|[r m] items IHi]; simpl; [by left|].
    case_decide; simpl; [done|by right]. }
  destruct (Hinner (enumerate S)) as [->| ->]; simpl; [done|by right].
Qed.

(** X12: the self-test cannot report a failure.  The branch that should
    record one calls [failed.add] with two arguments, so over any oracle
    the test passes when the oracle lists every step of every solution and
    ends in a [TypeError] when the oracle misses one; for a negative size
    it ends in the [ValueError] of [permutations]. *)
Theorem self_test_never_reports_failure oracle n :
  (n < 0 → test_oracle oracle n = Raised ValueError)
  ∧ (0 ≤ n →
     ((∀ S row move, is_solution n S → S !! row = Some move →
         move ∈ oracle (take row S) n) →
      test_oracle oracle n = Returned Passed)
     ∧ ((∃ S row move, is_solution n S ∧ S !! row = Some move
           ∧ move ∉ oracle (take row S) n) →
        test_oracle oracle n = Raised TypeError))
  ∧ (∀ failed, test_oracle oracle n ≠ Returned (Failed failed))
  ∧ ∀ set_order failed,
      test_get_valid_moves set_order n ≠ Returned (Failed failed).
Proof.
  assert (∀ oracle failed, test_oracle oracle n ≠ Returned (Failed failed))
    as Hnever.
  { intros oracle' failed. unfold test_oracle, brute_force.
    case_decide; [done|]. simpl.
    destruct (test_oracle_loop_outcome oracle' n
                (elements (foldl try_permut (∅, 0)
                             (permutations (range n) (Z.to_nat n))).1))
      as [Hres|Hres]; simpl in Hres; rewrite Hres; by simpl. }
  split; [|split; [|split]].
  - intros Hneg. unfold test_oracle, brute_force. by rewrite decide_True.
  - intros Hn. split; [by apply test_oracle_passes|by apply test_oracle_raises].
  - apply Hnever.
  - intros set_order failed. apply Hnever.
Qed.

(** ** The script *)

Section ScriptProperties.

Variable set_order : Z → list Z → list Z.
Variable int : string → option Z.

Lemma ask_skips skipped rest :
  Forall (asks_again int) skipped →
  ask int (skipped ++ rest)
  = (replicate (length skipped) Prompt ++ (ask int rest).1, (ask int rest).2).
Proof.
  induction 1 as [|line skipped (value & Hint & Hle) _ IH]; simpl.
  - by destruct (ask int rest).
  - rewrite Hint, decide_False by lia. by rewrite IH.
Qed.

Lemma ask_outcome stdin :
  Forall (λ o, o = Prompt) (ask int stdin).1
  ∧ ((ask int stdin).2 = inl UncaughtEOFError
     ∨ (ask int stdin).2 = inl (Uncaught ValueError)
     ∨ ∃ line value, (ask int stdin).2 = inr line
                     ∧ int line = Some value ∧ 0 < value).
Proof.
  induction stdin as [|line stdin [IHout IHres]]; simpl.
  - split; [by repeat constructor|by left].
  - destruct (int line) as [value|] eqn:Hint; simpl.
    + case_decide; simpl.
      * split; [by repeat constructor|]. right. right. eauto.
      * destruct (ask int stdin) as [out res]. simpl in *.
        split; [by constructor|done].
    + split; [by repeat constructor|]. right. by left.
Qed.

Lemma main_positive line n :
  lists_survivors set_order n → int line = Some n → 0 < n →
  ∃ recurs_sol,
    recursive_fast set_order [] n = Returned recurs_sol
    ∧ main set_order int line = ([Solution recurs_sol], Exited)
    ∧ match recurs_sol with
      | Some sol => is_solution n sol
      | None => ∀ sol, ¬ is_solution n sol
      end.
Proof.
  intros Horder Hint Hn.
  destruct (recursive_fast_nil set_order n Horder) as (r & Hr & Hspec);
    [lia|].
  exists r. split; [done|]. split; [|done].
  unfold main. by rewrite Hint, Hr.
Qed.

End ScriptProperties.

(** X13: the script asks until a line denotes a positive integer [n],
    skipping the lines that denote integers that are not positive, then
    shows the result of [recursive_fast([], n)] once and ends normally; what
    it shows is a solution for size [n], or [None] when there is none. *)
Theorem script_shows_solution set_order int skipped line rest n :
  lists_survivors set_order n →
  Forall (asks_again int) skipped → int line = Some n → 0 < n →
  ∃ recurs_sol,
    recursive_fast set_order [] n = Returned recurs_sol
    ∧ script set_order int (skipped ++ line :: rest)
      = (ScriptStart :: replicate (S (length skipped)) Prompt
           ++ [Solution recurs_sol; ScriptEnd],
         Exited)
    ∧ match recurs_sol with
      | Some sol => is_solution n sol
      | None => ∀ sol, ¬ is_solution n sol
      end.
Proof.
  intros Horder Hskipped Hint Hn.
  destruct (main_positive set_order int line n Horder Hint Hn)
    as (r & Hr & Hmain & Hspec).
  exists r. split; [done|]. split; [|done].
  unfold script. rewrite ask_skips by done. simpl.
  rewrite Hint, decide_True by done. simpl. rewrite Hmain.
  by rewrite <-replicate_S_end.
Qed.

Lemma script_shows_solution_witness :
  let int := λ text : string,
    if decide (text = "8"%string) then Some 8
    else if decide (text = "0"%string) then Some 0 else None in
  lists_survivors ascending 8 ∧
  Forall (asks_again int) ["0"%string] ∧ int "8"%string = Some 8 ∧ 0 < 8 ∧
  ∃ recurs_sol,
    recursive_fast ascending [] 8 = Returned recurs_sol
    ∧ script ascending int (["0"%string] ++ "8"%string :: [])
      = (ScriptStart :: replicate (S (length ["0"%string])) Prompt
           ++ [Solution recurs_sol; ScriptEnd],
         Exited)
    ∧ match recurs_sol with
      | Some sol => is_solution 8 sol
      | None => ∀ sol, ¬ is_solution 8 sol
      end.
Proof.
  intros int.
  assert (Forall (asks_again int) ["0"%string]) as Hskipped.
  { constructor; [|constructor]. exists 0. split; [reflexivity|lia]. }
  split; [intros ?; reflexivity|]. split; [exact Hskipped|].
  split; [reflexivity|]. split; [lia|].
  apply (script_shows_solution ascending int ["0"%string] "8"%string [] 8);
    [intros ?; reflexivity|exact Hskipped|reflexivity|lia].
Defined.

(** X14: the prompt does not ask again after a line that is not an
    integer, and it does not survive the end of the input: after lines that
    denote integers that are not positive, such a line ends the script in
    the [ValueError] of [int], and the end of the input ends it in
    [EOFError]; in both cases nothing but the banner and the prompts has
    been written. *)
Theorem script_stops_on_bad_input set_order int skipped :
  Forall (asks_again int) skipped →
  script set_order int skipped
  = (ScriptStart :: replicate (S (length skipped)) Prompt, UncaughtEOFError)
  ∧ ∀ line rest, int line = None →
      script set_order int (skipped ++ line :: rest)
      = (ScriptStart :: replicate (S (length skipped)) Prompt,
         Uncaught ValueError).
Proof.
  intros Hskipped. split.
  - unfold script. rewrite <-(right_id_L [] (++) skipped) at 1.
    rewrite ask_skips by done. simpl. by rewrite <-replicate_S_end.
  - intros line rest Hint. unfold script. rewrite ask_skips by done. simpl.
    rewrite Hint. simpl. by rewrite <-replicate_S_end.
Qed.

Lemma script_stops_on_bad_input_witness :
  let int := λ text : string,
    if decide (text = "8"%string) then Some 8
    else if decide (text = "0"%string) then Some 0 else None in
  Forall (asks_again int) ["0"%string] ∧
  script ascending int ["0"%string]
  = (ScriptStart :: replicate (S (length ["0"%string])) Prompt,
     UncaughtEOFError)
  ∧ ∀ line rest, int line = None →
      script ascending int (["0"%string] ++ line :: rest)
      = (ScriptStart :: replicate (S (length ["0"%string])) Prompt,
         Uncaught ValueError).
Proof.
  intros int.
  assert (Forall (asks_again int) ["0"%string]) as Hskipped.
  { constructor; [|constructor]. exists 0. split; [reflexivity|lia]. }
  split; [exact Hskipped|].
  apply (script_stops_on_bad_input ascending int ["0"%string]).
  exact Hskipped.
Defined.

(** X15: [main] is only run on a line that denotes a positive integer, so
    whatever is typed the script never ends in the [AssertionError] of the
    solver: it ends normally, in the [ValueError] of [int] or in
    [EOFError]; it writes its closing banner exactly when it ends normally,
    and a solution line only then. *)
Theorem script_never_fails_in_solver set_order int stdin :
  (∀ n, 0 < n → lists_survivors set_order n) →
  ∃ out e,
    script set_order int stdin = (out, e)
    ∧ (e = Exited ∨ e = Uncaught ValueError ∨ e = UncaughtEOFError)
    ∧ (ScriptEnd ∈ out ↔ e = Exited)
    ∧ ∀ recurs_sol, Solution recurs_sol ∈ out → e = Exited.
Proof.
  intros Horder. unfold script.
  destruct (ask_outcome int stdin) as [Hout Hres].
  destruct (ask int stdin) as [asked res]. simpl in *.
  assert (∀ o, o ∈ asked → o = Prompt) as Hasked
    by (by apply Forall_forall).
  destruct Hres as [->|[->|(line & value & -> & Hint & Hpos)]].
  - eexists _, _. split; [done|]. split; [by right; right|].
    split; [split; [|done]|].
    + intros [?|?%Hasked]%elem_of_cons; done.
    + intros r [?|?%Hasked]%elem_of_cons; done.
  - eexists _, _. split; [done|]. split; [by right; left|].
    split; [split; [|done]|].
    + intros [?|?%Hasked]%elem_of_cons; done.
    + intros r [?|?%Hasked]%elem_of_cons; done.
  - destruct (main_positive set_order int line value (Horder _ Hpos) Hint Hpos)
      as (r & _ & -> & _).
    eexists _, _. split; [done|]. split; [by left|]. split; [|done].
    split; [done|]. intros _. set_solver.
Qed.

Lemma script_never_fails_in_solver_witness :
  (∀ n, 0 < n → lists_survivors ascending n) ∧
  ∃ out e,
    script ascending (λ _, Some 3) ["x"%string] = (out, e)
    ∧ (e = Exited ∨ e = Uncaught ValueError ∨ e = UncaughtEOFError)
    ∧ (ScriptEnd ∈ out ↔ e = Exited)
    ∧ ∀ recurs_sol, Solution recurs_sol ∈ out → e = Exited.
Proof.
  split; [intros n _ ?; reflexivity|].
  apply (script_never_fails_in_solver ascending (λ _, Some 3) ["x"%string]).
  intros n _ ?; reflexivity.
Defined.
